(** * Custom-property scanner and patcher of the design-system editor

    A shallow embedding of [src/utils/cssParser.ts]: the scanner
    [parseCssVariables], which walks a stylesheet once and records every
    custom-property declaration with the exact span of its value, and the
    patcher [patchCss], which splices edited values back into the text.

    JavaScript strings are sequences of UTF-16 code units; they are modelled
    as lists of code units.  Indices and counters are JavaScript numbers
    holding integers and are modelled in [Z]: the brace and parenthesis
    counters may go negative, and [-1] is used as "not found". *)

From Stdlib Require Import ZArith List Bool Lia Ascii String.
From Stdlib Require Import DecimalString DecimalPos DecimalZ.
From Stdlib Require Import Sorting.Sorted.
From stdpp Require Import base numbers list option gmap sorting.
From Equations Require Import Equations.

Local Open Scope Z_scope.

(** ** Strings *)

Module Js.

(** A code unit; a string is a list of them. *)
Definition char := N.
Definition str := list char.

(** ASCII literals, for readable examples. *)
Fixpoint lit (s : String.string) : str :=
  match s with
  | EmptyString => []
  | String a s' => N_of_ascii a :: lit s'
  end.

(** [s.length] *)
Definition len (s : str) : Z := Z.of_nat (length s).

(** [s[i]]: [None] stands for [undefined] (index out of range). *)
Definition charAt (s : str) (i : Z) : option char :=
  if i <? 0 then None else s !! Z.to_nat i.

(** [x === 'c'] for [x] a one-unit string or [undefined]. *)
Definition isChar (x : option char) (c : char) : bool :=
  match x with
  | Some y => N.eqb y c
  | None => false
  end.

(** [a === b] for [a : string | null] and [b : string | undefined]:
    [null === undefined] is false. *)
Definition sameChar (a b : option char) : bool :=
  match a, b with
  | Some x, Some y => N.eqb x y
  | _, _ => false
  end.

(** [!x] for [x : string | null] holding at most one code unit. *)
Definition isNull (x : option char) : bool :=
  match x with
  | Some _ => false
  | None => true
  end.

(** [s.slice(start, end)] with the clamping and the from-the-end reading
    of negative arguments of [String.prototype.slice]. *)
Definition clampIndex (s : str) (k : Z) : Z :=
  if k <? 0 then Z.max (len s + k) 0 else Z.min k (len s).

Definition slice (s : str) (start stop : Z) : str :=
  let from := clampIndex s start in
  let to := clampIndex s stop in
  take (Z.to_nat (to - from)) (drop (Z.to_nat from) s).

(** [s.slice(start)] *)
Definition sliceFrom (s : str) (start : Z) : str := slice s start (len s).

(** White space and line terminators, as removed by
    [String.prototype.trim]. *)
Definition isWhite (c : char) : bool :=
  (N.leb 9 c && N.leb c 13 || N.eqb c 32 || N.eqb c 160 || N.eqb c 5760
   || N.leb 8192 c && N.leb c 8202 || N.eqb c 8232 || N.eqb c 8233
   || N.eqb c 8239 || N.eqb c 8287 || N.eqb c 12288 || N.eqb c 65279)%bool.

Fixpoint trimStart (s : str) : str :=
  match s with
  | c :: s' => if isWhite c then trimStart s' else s
  | [] => []
  end.

Definition trimEnd (s : str) : str := rev (trimStart (rev s)).

Definition trim (s : str) : str := trimEnd (trimStart s).

(** [`${n}`] for an integer [n]: the decimal digits, with a leading minus
    sign below zero.  (JavaScript changes to exponent notation from 1e21 on,
    far above any index into a string.) *)
Definition ofNumber (n : Z) : str := lit (NilZero.string_of_int (Z.to_int n)).

(** [x || dflt] for a string [x]: the empty string is falsy. *)
Definition orElse (x dflt : str) : str :=
  match x with
  | [] => dflt
  | _ => x
  end.

(** [s += c], where an [undefined] operand is rendered as text. *)
Definition append (s : str) (c : option char) : str :=
  match c with
  | Some x => s ++ [x]
  | None => s ++ lit "undefined"
  end.

End Js.

Import Js.

(** The characters the scanner looks at. *)
Module Ch.
Definition dquote : char := 34%N.
Definition squote : char := 39%N.
Definition lparen : char := 40%N.
Definition rparen : char := 41%N.
Definition star : char := 42%N.
Definition dash : char := 45%N.
Definition slash : char := 47%N.
Definition colon : char := 58%N.
Definition semi : char := 59%N.
Definition backslash : char := 92%N.
Definition underscore : char := 95%N.
Definition lbrace : char := 123%N.
Definition rbrace : char := 125%N.
End Ch.

(** ** The scanner *)

Record CssVariable := {
  id : str;
  name : str;
  value : str;
  startIndex : Z;
  endIndex : Z;
  selector : str
}.

(** [name.match(/^--[a-zA-Z0-9-_]+$/)] *)
Definition nameChar (c : char) : bool :=
  (N.leb 97 c && N.leb c 122 || N.leb 65 c && N.leb c 90
   || N.leb 48 c && N.leb c 57 || N.eqb c Ch.dash || N.eqb c Ch.underscore)%bool.

Definition validName (name : str) : bool :=
  match name with
  | a :: b :: c :: rest =>
      (N.eqb a Ch.dash && N.eqb b Ch.dash && forallb nameChar (c :: rest))%bool
  | _ => false
  end.

(** The quote bookkeeping shared by the two forward scans: a quote not
    preceded by a backslash closes the string it opened, or opens one when
    none is open. *)
Definition quoteStep (css : str) (j : Z) (c : option char) (open : option char)
  : option char :=
  if ((isChar c Ch.dquote || isChar c Ch.squote)
      && negb (isChar (charAt css (j - 1)) Ch.backslash))%bool
  then if sameChar open c then None
       else if isNull open then c else open
  else open.

(** The scan for the colon that ends the name; [-1] when a [;] or [}] or the
    end of the text comes first. *)
Equations? scanColon (css : str) (j : Z) (tempInString : option char) : Z
  by wf (Z.to_nat (len css - j)) lt :=
  scanColon css j tempInString with Z_lt_dec j (len css) := {
    | right _ => -1
    | left _ =>
        let c := charAt css j in
        if (isChar c Ch.colon && isNull tempInString)%bool then j
        else
          let tempInString' := quoteStep css j c tempInString in
          if ((isChar c Ch.semi || isChar c Ch.rbrace) && isNull tempInString')%bool
          then -1
          else scanColon css (j + 1) tempInString' }.
Proof. lia. Qed.

(** The scan for the end of the value; [-1] when the text ends first. *)
Equations? scanValueEnd (css : str) (k : Z) (tempInStringVal : option char)
  (tempParenDepth : Z) : Z
  by wf (Z.to_nat (len css - k)) lt :=
  scanValueEnd css k tempInStringVal tempParenDepth with Z_lt_dec k (len css) := {
    | right _ => -1
    | left _ =>
        let c := charAt css k in
        let tempInStringVal' := quoteStep css k c tempInStringVal in
        if isNull tempInStringVal' then
          if isChar c Ch.lparen
          then scanValueEnd css (k + 1) tempInStringVal' (tempParenDepth + 1)
          else if isChar c Ch.rparen
          then scanValueEnd css (k + 1) tempInStringVal' (tempParenDepth - 1)
          else if ((isChar c Ch.semi || isChar c Ch.rbrace) && (tempParenDepth =? 0))%bool
          then k
          else scanValueEnd css (k + 1) tempInStringVal' tempParenDepth
        else scanValueEnd css (k + 1) tempInStringVal' tempParenDepth }.
Proof. all: lia. Qed.

(** The scanner's variables: the loop index, the declarations found so far
    and the four pieces of lexical context. *)
Record state := {
  i : Z;
  variables : list CssVariable;
  currentSelector : str;
  braceDepth : Z;
  inComment : bool;
  inString : option char;
  buffer : str
}.

Definition init : state :=
  {| i := 0; variables := []; currentSelector := []; braceDepth := 0;
     inComment := false; inString := None; buffer := [] |}.

Definition set_i (st : state) (n : Z) : state :=
  {| i := n; variables := variables st; currentSelector := currentSelector st;
     braceDepth := braceDepth st; inComment := inComment st;
     inString := inString st; buffer := buffer st |}.

Definition set_inComment (st : state) (b : bool) : state :=
  {| i := i st; variables := variables st; currentSelector := currentSelector st;
     braceDepth := braceDepth st; inComment := b;
     inString := inString st; buffer := buffer st |}.

Definition set_inString (st : state) (q : option char) : state :=
  {| i := i st; variables := variables st; currentSelector := currentSelector st;
     braceDepth := braceDepth st; inComment := inComment st;
     inString := q; buffer := buffer st |}.

Definition set_buffer (st : state) (b : str) : state :=
  {| i := i st; variables := variables st; currentSelector := currentSelector st;
     braceDepth := braceDepth st; inComment := inComment st;
     inString := inString st; buffer := b |}.

Definition set_block (st : state) (sel : str) (depth : Z) : state :=
  {| i := i st; variables := variables st; currentSelector := sel;
     braceDepth := depth; inComment := inComment st;
     inString := inString st; buffer := [] |}.

Definition push (st : state) (v : CssVariable) : state :=
  {| i := i st; variables := variables st ++ [v];
     currentSelector := currentSelector st;
     braceDepth := braceDepth st; inComment := inComment st;
     inString := inString st; buffer := buffer st |}.

(** The id of a declaration: [`${i}-${valueStartIndex}`]. *)
Definition mkId (at_ valueStartIndex : Z) : str :=
  ofNumber at_ ++ [Ch.dash] ++ ofNumber valueStartIndex.

(** Variable detection at the current index: [Some] of the state at the
    [continue] that follows a recorded declaration, [None] when control falls
    through to the end of the loop body. *)
Definition tryDeclaration (css : str) (st : state) : option state :=
  let char := charAt css (i st) in
  let nextChar := charAt css (i st + 1) in
  if ((0 <? braceDepth st) && isChar char Ch.dash && isChar nextChar Ch.dash)%bool
  then
    let colonIndex := scanColon css (i st) None in
    if -1 <? colonIndex then
      let name := trim (slice css (i st) colonIndex) in
      if validName name then
        let valueEndIndex := scanValueEnd css (colonIndex + 1) None 0 in
        if -1 <? valueEndIndex then
          let valueStartIndex := colonIndex + 1 in
          let rawValue := slice css valueStartIndex valueEndIndex in
          let st' :=
            push st {| id := mkId (i st) valueStartIndex;
                       name := name;
                       value := rawValue;
                       startIndex := valueStartIndex;
                       endIndex := valueEndIndex;
                       selector := orElse (currentSelector st) (lit "Global") |} in
          if isChar (charAt css valueEndIndex) Ch.rbrace
          then Some (set_i st' (valueEndIndex - 1))
          else Some (set_i st' valueEndIndex)
        else None
      else None
    else None
  else None.

(** One iteration of the [for] loop, up to its [i++]. *)
Definition iteration (css : str) (st : state) : state :=
  let char := charAt css (i st) in
  let nextChar := charAt css (i st + 1) in
  if (isNull (inString st) && negb (inComment st)
      && isChar char Ch.slash && isChar nextChar Ch.star)%bool
  then set_i (set_inComment st true) (i st + 1)
  else if (inComment st && isChar char Ch.star && isChar nextChar Ch.slash)%bool
  then set_i (set_inComment st false) (i st + 1)
  else if inComment st then st
  else if (isNull (inString st) && (isChar char Ch.dquote || isChar char Ch.squote))%bool
  then set_inString st char
  else if (sameChar (inString st) char
           && negb (isChar (charAt css (i st - 1)) Ch.backslash))%bool
  then set_inString st None
  else if negb (isNull (inString st)) then st
  else if isChar char Ch.lbrace
  then set_block st
         (if braceDepth st =? 0 then trim (buffer st) else currentSelector st)
         (braceDepth st + 1)
  else if isChar char Ch.rbrace
  then set_block st
         (if braceDepth st - 1 =? 0 then [] else currentSelector st)
         (braceDepth st - 1)
  else
    match tryDeclaration css st with
    | Some st' => st'
    | None =>
        if braceDepth st =? 0 then set_buffer st (append (buffer st) char)
        else st
    end.

Definition body (css : str) (st : state) : state :=
  let st' := iteration css st in set_i st' (i st' + 1).

(** The [for] loop.  [fuel] bounds the number of iterations; [None] means
    the bound was too small, [Some] that the loop left through its guard. *)
Fixpoint loop (fuel : nat) (css : str) (st : state) : option state :=
  if i st <? len css then
    match fuel with
    | O => None
    | S fuel' => loop fuel' css (body css st)
    end
  else Some st.

Definition parseCssVariables (css : str) : option (list CssVariable) :=
  variables <$> loop (length css) css init.

(** The states the loop goes through on [css]. *)
Inductive Reach (css : str) : state -> Prop :=
| Reach_init : Reach css init
| Reach_body st : Reach css st -> i st < len css -> Reach css (body css st).

(** ** The patcher *)

(** [[...variables].sort((a, b) => b.startIndex - a.startIndex)]: the sort is
    stable, so its result is the one of any stable sort; insertion from the
    right is one. *)
Fixpoint insertDesc (v : CssVariable) (l : list CssVariable) : list CssVariable :=
  match l with
  | [] => [v]
  | w :: l' =>
      if startIndex w - startIndex v <=? 0 then v :: w :: l'
      else w :: insertDesc v l'
  end.

Definition sortDesc (l : list CssVariable) : list CssVariable :=
  foldr insertDesc [] l.

(** The body of the patch loop: [modifiedValues[v.id]] is a lookup in the
    edits, [undefined] when the id has no entry.  The finite map stands for
    the own properties of the object; that is the whole of the lookup for
    the ids the scanner makes, which are two numbers joined by a dash and so
    never the name of a member the object inherits. *)
Definition patchOne (modifiedValues : gmap str str) (patched : str)
  (v : CssVariable) : str :=
  match modifiedValues !! id v with
  | Some e =>
      if bool_decide (e ≠ value v)
      then slice patched 0 (startIndex v) ++ e ++ sliceFrom patched (endIndex v)
      else patched
  | None => patched
  end.

Definition patchCss (originalCss : str) (variables : list CssVariable)
  (modifiedValues : gmap str str) : str :=
  foldl (patchOne modifiedValues) originalCss (sortDesc variables).

(** ** Vocabulary of the statements *)

(** A terminator: [;] or [}]. *)
Definition isTerminator (c : option char) : bool :=
  (isChar c Ch.semi || isChar c Ch.rbrace)%bool.

(** The record pushed when a declaration is found at state [st], with its
    colon at [colonIndex] and its terminator at [valueEndIndex]. *)
Definition recorded (css : str) (st : state) (colonIndex valueEndIndex : Z)
  : CssVariable :=
  {| id := mkId (i st) (colonIndex + 1);
     name := trim (slice css (i st) colonIndex);
     value := slice css (colonIndex + 1) valueEndIndex;
     startIndex := colonIndex + 1;
     endIndex := valueEndIndex;
     selector := orElse (currentSelector st) (lit "Global") |}.

(** The iteration at state [st] finds a declaration: the scanner is outside
    comments and strings, inside a block, on the two dashes of a valid name
    that is followed by a colon at [colonIndex] and a value ending at the
    terminator [valueEndIndex]. *)
Record Finds (css : str) (st : state) (colonIndex valueEndIndex : Z) : Prop := {
  finds_comment : inComment st = false;
  finds_string : inString st = None;
  finds_depth : 0 < braceDepth st;
  finds_dash : charAt css (i st) = Some Ch.dash;
  finds_dash' : charAt css (i st + 1) = Some Ch.dash;
  finds_colon : scanColon css (i st) None = colonIndex;
  finds_colon_range : i st <= colonIndex < len css;
  finds_name : validName (trim (slice css (i st) colonIndex)) = true;
  finds_end : scanValueEnd css (colonIndex + 1) None 0 = valueEndIndex;
  finds_end_range : colonIndex + 1 <= valueEndIndex < len css;
  finds_terminator : isTerminator (charAt css valueEndIndex) = true
}.

(** Spans that follow one another between [lo] and [hi]: each starts after
    the previous one has ended, and none ends before it starts. *)
Fixpoint Chain (lo : Z) (ds : list CssVariable) (hi : Z) : Prop :=
  match ds with
  | [] => lo <= hi
  | d :: ds' =>
      lo < startIndex d /\ startIndex d <= endIndex d /\ Chain (endIndex d) ds' hi
  end.

(** A declaration the scanner records on [css]: pushed by the iteration at
    a state [st] the loop goes through. *)
Definition Recorded (css : str) (d : CssVariable) : Prop :=
  exists st colonIndex valueEndIndex,
    Reach css st /\ i st < len css /\
    Finds css st colonIndex valueEndIndex /\
    d = recorded css st colonIndex valueEndIndex.

(** Spans of two declarations that do not overlap. *)
Definition disjointSpans (a b : CssVariable) : Prop :=
  endIndex a <= startIndex b \/ endIndex b <= startIndex a.

(** The value the patcher writes for [v]: the entry of the edits under the
    id of [v], when there is one and it differs from the original value. *)
Definition replacement (modifiedValues : gmap str str) (v : CssVariable)
  : option str :=
  match modifiedValues !! id v with
  | Some e => if bool_decide (e ≠ value v) then Some e else None
  | None => None
  end.

(** The text from [pos] on with the spans of the changed declarations
    replaced, built from left to right: what lies between two changed spans
    is copied from the original. *)
Fixpoint rebuild (modifiedValues : gmap str str) (css : str) (pos : Z)
  (ds : list CssVariable) : str :=
  match ds with
  | [] => sliceFrom css pos
  | d :: ds' =>
      match replacement modifiedValues d with
      | Some e =>
          slice css pos (startIndex d) ++ e
            ++ rebuild modifiedValues css (endIndex d) ds'
      | None => rebuild modifiedValues css pos ds'
      end
  end.

(** By how much the replacement of [d] lengthens the text. *)
Definition growth (modifiedValues : gmap str str) (d : CssVariable) : Z :=
  match replacement modifiedValues d with
  | Some e => len e - (endIndex d - startIndex d)
  | None => 0
  end.

(** By how much the offset [p] of the original text is moved by the
    replacements made before it. *)
Fixpoint shift (modifiedValues : gmap str str) (ds : list CssVariable) (p : Z)
  : Z :=
  match ds with
  | [] => 0
  | d :: ds' =>
      (if endIndex d <=? p then growth modifiedValues d else 0)
      + shift modifiedValues ds' p
  end.

(** The stretch [a, b) of the original text lies outside the span of [d], or
    [d] is not changed. *)
Definition clearOf (modifiedValues : gmap str str) (a b : Z) (d : CssVariable)
  : Prop :=
  replacement modifiedValues d = None \/ endIndex d <= a \/ b <= startIndex d.






(** The text [s] with its block comments and quoted strings left out.  It
    is read from left to right by the rules for comments and for strings:
    [inComment] and [inString] tell what is open where [s] starts, and [prev]
    is the character before [s].  A comment opens with [/*] outside a string
    and closes with [*/]; a quote outside a string opens one, and the same
    quote closes it unless a backslash precedes it; every other character
    outside comments and strings is kept. *)
Fixpoint strip (inComment : bool) (inString : option char) (prev : option char)
  (s : str) : str :=
  match s with
  | [] => []
  | c :: rest =>
      let char := Some c in
      let nextChar := head rest in
      if (isNull inString && negb inComment
          && isChar char Ch.slash && isChar nextChar Ch.star)%bool
      then match rest with
           | _ :: rest' => strip true inString nextChar rest'
           | [] => []
           end
      else if (inComment && isChar char Ch.star && isChar nextChar Ch.slash)%bool
      then match rest with
           | _ :: rest' => strip false inString nextChar rest'
           | [] => []
           end
      else if inComment then strip true inString char rest
      else if (isNull inString && (isChar char Ch.dquote || isChar char Ch.squote))%bool
      then strip false char char rest
      else if (sameChar inString char && negb (isChar prev Ch.backslash))%bool
      then strip false None char rest
      else if negb (isNull inString) then strip false inString char rest
      else c :: strip false None char rest
  end.

(** The prelude text of a stretch of the source that starts outside
    comments and strings. *)
Definition preludeText (s : str) : str := strip false None None s.

(** The iteration at [s] is on a brace outside comments and strings. *)
Definition isPlainBrace (css : str) (s : state) : bool :=
  (negb (inComment s) && isNull (inString s)
   && (isChar (charAt css (i s)) Ch.lbrace || isChar (charAt css (i s)) Ch.rbrace))%bool.

(** From [s] the scanner goes to [s'] at nesting depth zero without meeting
    a brace outside comments and strings. *)
Inductive Accumulates (css : str) : state -> state -> Prop :=
| Accumulates_here s : Accumulates css s s
| Accumulates_body s s' :
    i s < len css -> braceDepth s = 0 -> isPlainBrace css s = false ->
    Accumulates css (body css s) s' -> Accumulates css s s'.

(** The prelude of the block opened at [sp] starts at [s0]: [s0] is the
    start of the scan, or the state right after the last brace the scanner
    met outside comments and strings before [sp]. *)
Definition PreludeStart (css : str) (s0 sp : state) : Prop :=
  (s0 = init \/
   exists sq, Reach css sq /\ i sq < len css /\ isPlainBrace css sq = true /\
              s0 = body css sq) /\
  Accumulates css s0 sp.

(** From [s] the scanner comes to [s'] by iterations of the loop. *)
Inductive Steps (css : str) : state -> state -> Prop :=
| Steps_here s : Steps css s s
| Steps_body s s' : i s < len css -> Steps css (body css s) s' -> Steps css s s'.

(** Declarations by descending start index. *)
Definition startsAfter (a b : CssVariable) : Prop := startIndex b < startIndex a.

(** ** The component that uses the scanner and the patcher

    [src/App.tsx] keeps the uploaded text, its declarations and the edits in
    [useState] cells; its handlers are modelled as functions on the record of
    these cells.  The edits are a plain object keyed by declaration ids; the
    ids the scanner makes are never names of [Object.prototype], so an own
    key is all a lookup can find, as in a finite map. *)

(** The scanner as the component calls it: it always returns a list. *)
Definition scan (css : str) : list CssVariable :=
  default [] (parseCssVariables css).

(** [s.startsWith(p)] *)
Fixpoint startsWith (s p : str) : bool :=
  match p, s with
  | [], _ => true
  | c :: p', d :: s' => (N.eqb d c && startsWith s' p')%bool
  | _ :: _, [] => false
  end.

(** [isColor]: the test that shows the colour picker for a value. *)
Definition isColor (val : str) : bool :=
  let v := trim val in
  (startsWith v (lit "#") || startsWith v (lit "rgb") || startsWith v (lit "hsl")
   || existsb (fun w => bool_decide (w = v))
        [lit "red"; lit "blue"; lit "green"; lit "white"; lit "black"])%bool.

(** Regular expressions without groups to read back, as [RegExp.test] on a
    pattern anchored at both ends decides them: [test] is membership of the
    whole text in the language of the pattern, computed here by
    derivatives. *)
Inductive regex :=
| Void
| Eps
| Chr (p : char -> bool)
| Seq (a b : regex)
| Alt (a b : regex)
| Star (a : regex).

Fixpoint nullable (r : regex) : bool :=
  match r with
  | Void => false
  | Eps => true
  | Chr _ => false
  | Seq a b => (nullable a && nullable b)%bool
  | Alt a b => (nullable a || nullable b)%bool
  | Star _ => true
  end.

Fixpoint deriv (r : regex) (c : char) : regex :=
  match r with
  | Void => Void
  | Eps => Void
  | Chr p => if p c then Eps else Void
  | Seq a b =>
      if nullable a then Alt (Seq (deriv a c) b) (deriv b c)
      else Seq (deriv a c) b
  | Alt a b => Alt (deriv a c) (deriv b c)
  | Star a => Seq (deriv a c) (Star a)
  end.

Fixpoint matches (r : regex) (s : str) : bool :=
  match s with
  | [] => nullable r
  | c :: s' => matches (deriv r c) s'
  end.

(** [r?], [r+] and a literal text. *)
Definition Opt (r : regex) : regex := Alt r Eps.
Definition Plus (r : regex) : regex := Seq r (Star r).
Definition Lit (s : String.string) : regex :=
  foldr (fun c r => Seq (Chr (N.eqb c)) r) Eps (lit s).

(** [\d] *)
Definition digit (c : char) : bool := (N.leb 48 c && N.leb c 57)%bool.

(** [/^-?\d*\.?\d+(px|rem|em|%|vh|vw|deg|s|ms)?$/] *)
Definition numericPattern : regex :=
  Seq (Opt (Chr (N.eqb Ch.dash)))
    (Seq (Star (Chr digit))
       (Seq (Opt (Chr (N.eqb 46)))
          (Seq (Plus (Chr digit))
             (Opt (Alt (Lit "px") (Alt (Lit "rem") (Alt (Lit "em")
                  (Alt (Lit "%") (Alt (Lit "vh") (Alt (Lit "vw")
                  (Alt (Lit "deg") (Alt (Lit "s") (Lit "ms"))))))))))))).

(** [isNumeric]: the test that shows the slider for a value. *)
Definition isNumeric (val : str) : bool := matches numericPattern (trim val).

(** A pattern that matches no text, by its shape. *)
Fixpoint isVoid (r : regex) : bool :=
  match r with
  | Void => true
  | Seq a b => (isVoid a || isVoid b)%bool
  | Alt a b => (isVoid a && isVoid b)%bool
  | _ => false
  end.

Module App.

Record state := {
  originalCss : str;
  variables : list CssVariable;
  modifiedValues : gmap str str;
  searchTerm : str;
  selectedVarId : option str;
  showDiff : bool;
  copied : bool
}.

Definition initial : state :=
  {| originalCss := []; variables := []; modifiedValues := ∅;
     searchTerm := []; selectedVarId := None; showDiff := false;
     copied := false |}.

(** [initialValues]: every declaration's id mapped to its original value,
    filled in by a [forEach] over the declarations. *)
Definition initialValues (vars : list CssVariable) : gmap str str :=
  foldl (fun m v => <[id v := value v]> m) ∅ vars.

(** The [onload] callback of [handleFileUpload], given the text read. *)
Definition fileLoaded (text : str) (s : state) : state :=
  let parsed := scan text in
  {| originalCss := text;
     variables := parsed;
     modifiedValues := initialValues parsed;
     searchTerm := searchTerm s;
     selectedVarId :=
       match parsed with
       | v :: _ => Some (id v)
       | [] => selectedVarId s
       end;
     showDiff := showDiff s;
     copied := copied s |}.

Definition handleReset (s : state) : state :=
  {| originalCss := originalCss s;
     variables := variables s;
     modifiedValues := initialValues (variables s);
     searchTerm := searchTerm s;
     selectedVarId := selectedVarId s;
     showDiff := showDiff s;
     copied := copied s |}.

(** [updateValue]: [{...prev, [id]: newValue}]. *)
Definition updateValue (k newValue : str) (s : state) : state :=
  {| originalCss := originalCss s;
     variables := variables s;
     modifiedValues := <[k := newValue]> (modifiedValues s);
     searchTerm := searchTerm s;
     selectedVarId := selectedVarId s;
     showDiff := showDiff s;
     copied := copied s |}.

Definition setSelectedVarId (k : str) (s : state) : state :=
  {| originalCss := originalCss s;
     variables := variables s;
     modifiedValues := modifiedValues s;
     searchTerm := searchTerm s;
     selectedVarId := Some k;
     showDiff := showDiff s;
     copied := copied s |}.

Definition setSearchTerm (term : str) (s : state) : state :=
  {| originalCss := originalCss s;
     variables := variables s;
     modifiedValues := modifiedValues s;
     searchTerm := term;
     selectedVarId := selectedVarId s;
     showDiff := showDiff s;
     copied := copied s |}.

Definition setShowDiff (b : bool) (s : state) : state :=
  {| originalCss := originalCss s;
     variables := variables s;
     modifiedValues := modifiedValues s;
     searchTerm := searchTerm s;
     selectedVarId := selectedVarId s;
     showDiff := b;
     copied := copied s |}.

Definition setCopied (b : bool) (s : state) : state :=
  {| originalCss := originalCss s;
     variables := variables s;
     modifiedValues := modifiedValues s;
     searchTerm := searchTerm s;
     selectedVarId := selectedVarId s;
     showDiff := showDiff s;
     copied := b |}.

(** What makes the component change its state. *)
Inductive event :=
| FileLoaded (text : str)
| ResetClicked
| ValueChanged (k newValue : str)
| VariableClicked (k : str)
| SearchTyped (term : str)
| DiffToggled
| Copied (b : bool).

Definition step (s : state) (e : event) : state :=
  match e with
  | FileLoaded text => fileLoaded text s
  | ResetClicked => handleReset s
  | ValueChanged k newValue => updateValue k newValue s
  | VariableClicked k => setSelectedVarId k s
  | SearchTyped term => setSearchTerm term s
  | DiffToggled => setShowDiff (negb (showDiff s)) s
  | Copied b => setCopied b s
  end.

Definition run (events : list event) : state := foldl step initial events.

(** The text that [handleDownload], [handleCopy] and the preview write. *)
Definition patched (s : state) : str :=
  patchCss (originalCss s) (variables s) (modifiedValues s).

(** The declarations of the diff view:
    [variables.filter(v => modifiedValues[v.id] !== v.value)]. *)
Definition changed (s : state) : list CssVariable :=
  filter (fun v => modifiedValues s !! id v ≠ Some (value v)) (variables s).

(** [variables.find(v => v.id === selectedVarId)] *)
Definition selectedVar (s : state) : option CssVariable :=
  List.find (fun v => bool_decide (selectedVarId s = Some (id v))) (variables s).

(** [selectedVar ? modifiedValues[selectedVar.id] : ''], [None] standing for
    [undefined]. *)
Definition selectedValue (s : state) : option str :=
  match selectedVar s with
  | Some v => modifiedValues s !! id v
  | None => Some []
  end.

(** What the handlers keep: the declarations are those of the text, and
    each of them has an entry in the edits. *)
Definition Consistent (s : state) : Prop :=
  variables s = scan (originalCss s) /\
  Forall (fun v => is_Some (modifiedValues s !! id v)) (variables s).

End App.

(** * Properties *)

(** ** Strings *)

Lemma len_nonneg (s : str) : 0 <= len s.
Proof. unfold len. lia. Qed.

Lemma charAt_Some_range (s : str) (k : Z) (c : char) :
  charAt s k = Some c -> 0 <= k < len s.
Proof.
  unfold charAt, len. destruct (Z.ltb_spec k 0) as [Hk|Hk]; [discriminate|].
  intros Hs%lookup_lt_Some. lia.
Qed.

Lemma isChar_Some (x : option char) (c : char) :
  isChar x c = true -> x = Some c.
Proof.
  destruct x as [y|]; simpl; [|discriminate].
  intros H%N.eqb_eq. now subst.
Qed.

(** ** The forward scans *)

Lemma scanColon_range (css : str) (j : Z) (t : option char) :
  scanColon css j t = -1 \/
  (j <= scanColon css j t < len css /\
   charAt css (scanColon css j t) = Some Ch.colon).
Proof.
  funelim (scanColon css j t); [|now left]. clear Heqcall Heq.
  destruct (isChar (charAt css j) Ch.colon && isNull tempInString) eqn:E1.
  - right. apply andb_prop in E1 as [E1 _]. apply isChar_Some in E1.
    split; [lia|done].
  - destruct ((isChar (charAt css j) Ch.semi || isChar (charAt css j) Ch.rbrace)
              && isNull (quoteStep css j (charAt css j) tempInString)).
    + now left.
    + destruct H as [->|[? ?]]; [now left|right; split; [lia|done]].
Qed.

Lemma scanValueEnd_range (css : str) (k : Z) (t : option char) (d : Z) :
  scanValueEnd css k t d = -1 \/
  (k <= scanValueEnd css k t d < len css /\
   isTerminator (charAt css (scanValueEnd css k t d)) = true).
Proof.
  funelim (scanValueEnd css k t d); [|now left]. clear Heqcall Heq.
  repeat match goal with
    | |- context [if ?b then _ else _] => destruct b eqn:?
    end;
  try match goal with
    | IH : ?x = -1 \/ _ |- ?x = -1 \/ _ =>
        destruct IH as [->|[? ?]]; [now left | right; split; [lia|done]]
    end.
  right. split; [lia|].
  match goal with E : (_ && _)%bool = true |- _ => apply andb_prop in E as [E _] end.
  done.
Qed.

(** ** One iteration *)

Lemma tryDeclaration_Some (css : str) (st st' : state) :
  tryDeclaration css st = Some st' ->
  exists colonIndex valueEndIndex,
    0 < braceDepth st /\
    charAt css (i st) = Some Ch.dash /\
    charAt css (i st + 1) = Some Ch.dash /\
    scanColon css (i st) None = colonIndex /\
    i st <= colonIndex < len css /\
    validName (trim (slice css (i st) colonIndex)) = true /\
    scanValueEnd css (colonIndex + 1) None 0 = valueEndIndex /\
    colonIndex + 1 <= valueEndIndex < len css /\
    isTerminator (charAt css valueEndIndex) = true /\
    st' = set_i (push st (recorded css st colonIndex valueEndIndex))
            (if isChar (charAt css valueEndIndex) Ch.rbrace
             then valueEndIndex - 1 else valueEndIndex).
Proof.
  unfold tryDeclaration.
  destruct (_ && _ && _)%bool eqn:E; [|discriminate].
  apply andb_prop in E as [E E3]. apply andb_prop in E as [E1 E2].
  destruct (Z.ltb_spec (-1) (scanColon css (i st) None)) as [Hc|]; [|discriminate].
  destruct (validName _) eqn:Hn; [|discriminate].
  destruct (Z.ltb_spec (-1)
              (scanValueEnd css (scanColon css (i st) None + 1) None 0))
    as [He|]; [|discriminate].
  intros Hst'.
  exists (scanColon css (i st) None),
         (scanValueEnd css (scanColon css (i st) None + 1) None 0).
  destruct (scanColon_range css (i st) None) as [?|[? ?]]; [lia|].
  destruct (scanValueEnd_range css (scanColon css (i st) None + 1) None 0)
    as [?|[? ?]]; [lia|].
  repeat split; try lia; try done; try (now apply isChar_Some).
  unfold recorded. destruct (isChar _ Ch.rbrace); congruence.
Qed.

(** An iteration either leaves the list of declarations alone, moving on by
    one or two characters, or finds a declaration and moves past its value. *)
Lemma body_cases (css : str) (st : state) :
  (variables (body css st) = variables st /\
   i st + 1 <= i (body css st) <= i st + 2 /\
   (i (body css st) = i st + 2 -> i st + 1 < len css)) \/
  (exists colonIndex valueEndIndex,
     Finds css st colonIndex valueEndIndex /\
     variables (body css st) =
       variables st ++ [recorded css st colonIndex valueEndIndex] /\
     currentSelector (body css st) = currentSelector st /\
     braceDepth (body css st) = braceDepth st /\
     inComment (body css st) = false /\
     inString (body css st) = None /\
     valueEndIndex <= i (body css st) <= valueEndIndex + 1).
Proof.
  unfold body, iteration.
  repeat case_match; simpl;
    try (left; repeat split; try lia; intros _;
         match goal with
         | E : (_ && _)%bool = true |- _ =>
             repeat (apply andb_prop in E as [E ?]);
             match goal with
             | N : isChar (charAt css (i st + 1)) _ = true |- _ =>
                 apply isChar_Some, charAt_Some_range in N; lia
             end
         | _ => lia
         end).
  right.
  match goal with
  | E : tryDeclaration css st = Some _ |- _ =>
      apply tryDeclaration_Some in E
        as (c & e & ? & ? & ? & ? & ? & ? & ? & ? & ? & ->)
  end.
  exists c, e.
  repeat match goal with
    | E : negb _ = false |- _ => apply negb_false_iff in E
    | E : isNull ?x = true |- _ => destruct x eqn:?; [discriminate|clear E]
    end.
  split; [constructor; done|].
  simpl. repeat split; try done; destruct (isChar (charAt css e) Ch.rbrace); simpl; lia.
Qed.

Lemma body_progress (css : str) (st : state) : i st < i (body css st).
Proof.
  destruct (body_cases css st) as [(_ & ? & _)|(c & e & F & _ & _ & _ & _ & _ & ?)].
  - lia.
  - destruct F. lia.
Qed.

(** ** The loop *)

Lemma loop_total (fuel : nat) (css : str) (st : state) :
  len css - i st <= Z.of_nat fuel ->
  exists st', loop fuel css st = Some st'.
Proof.
  revert st. induction fuel as [|fuel IH]; intros st Hf; simpl.
  - destruct (Z.ltb_spec (i st) (len css)); [lia|eauto].
  - destruct (Z.ltb_spec (i st) (len css)); [|eauto].
    apply IH. pose proof (body_progress css st). lia.
Qed.

Lemma loop_Reach (fuel : nat) (css : str) (st st' : state) :
  Reach css st -> loop fuel css st = Some st' ->
  Reach css st' /\ len css <= i st'.
Proof.
  revert st. induction fuel as [|fuel IH]; intros st HR; simpl.
  - destruct (Z.ltb_spec (i st) (len css)); [discriminate|].
    intros [= <-]. done.
  - destruct (Z.ltb_spec (i st) (len css)).
    + apply IH. now constructor.
    + intros [= <-]. done.
Qed.

(** The scanner returns: the loop leaves through its guard, in a state the
    iterations lead to. *)
Lemma parse_final (css : str) :
  exists st, Reach css st /\ len css <= i st /\
             parseCssVariables css = Some (variables st).
Proof.
  destruct (loop_total (length css) css init) as [st Hst].
  { unfold len. simpl. lia. }
  exists st. destruct (loop_Reach _ _ _ _ (Reach_init css) Hst).
  unfold parseCssVariables. rewrite Hst. done.
Qed.

(** ** Invariants of the loop *)

Lemma Chain_weaken (lo : Z) (ds : list CssVariable) (hi lo' hi' : Z) :
  Chain lo ds hi -> lo' <= lo -> hi <= hi' -> Chain lo' ds hi'.
Proof.
  revert lo lo'. induction ds as [|d ds IH]; simpl; intros lo lo' H ? ?.
  - lia.
  - destruct H as (? & ? & H). repeat split; try lia.
    apply (IH _ _ H); lia.
Qed.

Lemma Chain_snoc (lo : Z) (ds : list CssVariable) (mid hi : Z) (d : CssVariable) :
  Chain lo ds mid -> mid < startIndex d -> startIndex d <= endIndex d ->
  endIndex d <= hi -> Chain lo (ds ++ [d]) hi.
Proof.
  revert lo. induction ds as [|d' ds IH]; simpl; intros lo H ? ? ?.
  - repeat split; lia.
  - destruct H as (? & ? & H). repeat split; try lia. now apply IH.
Qed.

Lemma Chain_bounds (lo : Z) (ds : list CssVariable) (hi : Z) :
  Chain lo ds hi ->
  lo <= hi /\ Forall (fun d => lo < startIndex d /\ endIndex d <= hi) ds.
Proof.
  revert lo. induction ds as [|d ds IH]; simpl; intros lo H.
  - split; [lia|constructor].
  - destruct H as (? & ? & H). destruct (IH _ H) as [? HF].
    split; [lia|]. constructor; [lia|].
    eapply Forall_impl; [exact HF|]. simpl. intros; lia.
Qed.

Lemma Reach_inv (css : str) (st : state) :
  Reach css st ->
  0 <= i st <= len css /\
  Chain 0 (variables st) (i st) /\
  Forall (Recorded css) (variables st).
Proof.
  induction 1 as [|st HR (Hi & HC & HF) Hlt].
  - simpl. pose proof (len_nonneg css). repeat split; try lia. constructor.
  - destruct (body_cases css st)
      as [(Hv & ? & ?)|(c & e & F & Hv & _ & _ & _ & _ & ?)].
    + rewrite Hv. repeat split; try lia; [|done].
      eapply Chain_weaken; [exact HC|lia|lia].
    + rewrite Hv. pose proof (finds_colon_range _ _ _ _ F).
      pose proof (finds_end_range _ _ _ _ F).
      split; [lia|]. split.
      * eapply Chain_snoc; [exact HC|cbn [recorded startIndex endIndex]; lia..].
      * apply Forall_app. split; [done|].
        constructor; [|constructor]. now exists st, c, e.
Qed.

(** What the scanner returns is the list of declarations of a state the loop
    reaches, with the index at the end of the text. *)
Lemma parse_Reach (css : str) :
  exists st, Reach css st /\ i st = len css /\
             parseCssVariables css = Some (variables st).
Proof.
  destruct (parse_final css) as (st & HR & ? & ?).
  exists st. destruct (Reach_inv _ _ HR) as (? & _). repeat split; [done|lia|done].
Qed.

(** ** Slices at valid offsets *)

Lemma slice_nonneg (s : str) (a b : Z) :
  0 <= a -> 0 <= b ->
  slice s a b = take (Z.to_nat (b - a)) (drop (Z.to_nat a) s).
Proof.
  intros Ha Hb. unfold slice, clampIndex.
  destruct (Z.ltb_spec a 0); [lia|]. destruct (Z.ltb_spec b 0); [lia|].
  destruct (Z.le_gt_cases a (len s)) as [Hal|Hal].
  - rewrite (Z.min_l a) by lia.
    destruct (Z.le_gt_cases b (len s)) as [Hbl|Hbl].
    + now rewrite (Z.min_l b) by lia.
    + rewrite (Z.min_r b) by lia.
      rewrite !take_ge; [done|rewrite length_drop; unfold len in *; lia..].
  - rewrite (Z.min_r a) by lia.
    rewrite !(drop_ge s) by (unfold len in *; lia). now rewrite !take_nil.
Qed.

Lemma slice_0 (s : str) (b : Z) : 0 <= b -> slice s 0 b = take (Z.to_nat b) s.
Proof. intros. rewrite slice_nonneg by lia. simpl. f_equal. lia. Qed.

Lemma sliceFrom_nonneg (s : str) (a : Z) :
  0 <= a -> sliceFrom s a = drop (Z.to_nat a) s.
Proof.
  intros. unfold sliceFrom. pose proof (len_nonneg s).
  rewrite slice_nonneg by lia. apply take_ge.
  rewrite length_drop. unfold len. lia.
Qed.

Lemma slice_empty (s : str) (a : Z) : 0 <= a -> slice s a a = [].
Proof. intros. rewrite slice_nonneg by lia. now rewrite Z.sub_diag. Qed.

Lemma len_app (s t : str) : len (s ++ t) = len s + len t.
Proof. unfold len. rewrite length_app. lia. Qed.

Lemma len_slice (s : str) (a b : Z) :
  0 <= a <= b -> b <= len s -> len (slice s a b) = b - a.
Proof.
  intros. rewrite slice_nonneg by lia. unfold len in *.
  rewrite length_take, length_drop. lia.
Qed.

(** A slice that lies inside the left part of a concatenation. *)
Lemma slice_app_l (s t : str) (a b : Z) :
  0 <= a -> 0 <= b <= len s -> slice (s ++ t) a b = slice s a b.
Proof.
  intros. rewrite !slice_nonneg by lia. unfold len in *.
  destruct (Z.le_gt_cases b a).
  - replace (Z.to_nat (b - a)) with 0%nat by lia. done.
  - rewrite drop_app_le by lia. rewrite take_app_le; [done|].
    rewrite length_drop. lia.
Qed.

(** A slice that lies inside the right part of a concatenation. *)
Lemma slice_app_r (s t : str) (a b : Z) :
  0 <= a -> 0 <= b ->
  slice (s ++ t) (len s + a) (len s + b) = slice t a b.
Proof.
  intros. pose proof (len_nonneg s). rewrite !slice_nonneg by lia.
  unfold len in *.
  replace (Z.to_nat (Z.of_nat (length s) + a))
    with (length s + Z.to_nat a)%nat by lia.
  rewrite drop_app_add. f_equal. lia.
Qed.

(** A slice of a slice is a slice of the text. *)
Lemma slice_slice (s : str) (p q a b : Z) :
  0 <= p -> 0 <= a <= b -> p + b <= q -> q <= len s ->
  slice (slice s p q) a b = slice s (p + a) (p + b).
Proof.
  intros. rewrite !slice_nonneg by lia.
  rewrite take_drop_commute, take_take, Nat.min_l by lia.
  rewrite <- take_drop_commute, drop_drop. f_equal; [lia|]. f_equal. lia.
Qed.

(** ** What the patcher computes *)

Lemma patchOne_replacement (edits : gmap str str) (patched : str) (v : CssVariable) :
  patchOne edits patched v =
  match replacement edits v with
  | Some e => slice patched 0 (startIndex v) ++ e ++ sliceFrom patched (endIndex v)
  | None => patched
  end.
Proof.
  unfold patchOne, replacement. destruct (edits !! id v); [|done].
  now destruct (bool_decide _).
Qed.

(** Nothing is written for a declaration exactly when the edits have no
    entry under its id, or one equal to its value. *)
Lemma replacement_None (edits : gmap str str) (v : CssVariable) :
  replacement edits v = None <->
  edits !! id v = None \/ edits !! id v = Some (value v).
Proof.
  unfold replacement. destruct (edits !! id v) as [e|]; [|tauto].
  destruct (bool_decide_reflect (e ≠ value v)) as [Hne|Heq].
  - split; [done|]. intros [?|[= ?]]; [done|]. now destruct Hne.
  - split; [|done]. intros _. right. f_equal.
    destruct (decide (e = value v)); [done|]. now destruct Heq.
Qed.

Lemma insertDesc_last (v : CssVariable) (l : list CssVariable) :
  Forall (fun w => startIndex v < startIndex w) l -> insertDesc v l = l ++ [v].
Proof.
  induction 1 as [|w l Hw _ IH]; simpl; [done|].
  destruct (Z.leb_spec (startIndex w - startIndex v) 0); [lia|].
  now rewrite IH.
Qed.

(** Declarations in ascending order are sorted by reversing them. *)
Lemma sortDesc_Chain (lo : Z) (ds : list CssVariable) (hi : Z) :
  Chain lo ds hi -> sortDesc ds = rev ds.
Proof.
  revert lo. induction ds as [|d ds IH]; simpl; intros lo H; [done|].
  destruct H as (_ & ? & H). rewrite (IH _ H).
  apply insertDesc_last. apply Forall_rev.
  destruct (Chain_bounds _ _ _ H) as [_ HF].
  eapply Forall_impl; [exact HF|]. simpl. intros; lia.
Qed.

Lemma patch_rebuild (edits : gmap str str) (css : str) (ds : list CssVariable)
  (pos : Z) :
  0 <= pos -> Chain pos ds (len css) ->
  foldl (patchOne edits) css (rev ds) =
  slice css 0 pos ++ rebuild edits css pos ds.
Proof.
  revert pos. induction ds as [|d ds IH]; simpl; intros pos Hpos H.
  - rewrite slice_0, sliceFrom_nonneg by lia. now rewrite take_drop.
  - destruct H as (? & ? & H).
    destruct (Chain_bounds _ _ _ H) as [? _].
    rewrite foldl_snoc, patchOne_replacement.
    destruct (replacement edits d) as [e|].
    + rewrite (IH (endIndex d)) by (done || lia).
      rewrite !slice_0 by lia.
      assert (Hl : length (take (Z.to_nat (endIndex d)) css)
                   = Z.to_nat (endIndex d)).
      { rewrite length_take. unfold len in *. lia. }
      rewrite sliceFrom_nonneg by lia.
      rewrite drop_app_length' by done.
      rewrite take_app_le by lia.
      rewrite take_take, Nat.min_l by lia.
      rewrite slice_nonneg by lia.
      rewrite !app_assoc. f_equal. f_equal.
      rewrite take_take_drop. f_equal. lia.
    + apply IH; [lia|]. eapply Chain_weaken; [exact H|lia|lia].
Qed.

(** The patcher, on declarations in ascending order with spans inside the
    text, replaces the changed spans and copies everything else. *)
Lemma patchCss_rebuild (edits : gmap str str) (css : str) (ds : list CssVariable) :
  Chain 0 ds (len css) -> patchCss css ds edits = rebuild edits css 0 ds.
Proof.
  intros H. unfold patchCss. rewrite (sortDesc_Chain _ _ _ H).
  rewrite (patch_rebuild edits css ds 0) by (done || lia).
  now rewrite slice_empty.
Qed.

Lemma shift_before (edits : gmap str str) (lo : Z) (ds : list CssVariable)
  (hi a : Z) :
  Chain lo ds hi -> a <= lo -> shift edits ds a = 0.
Proof.
  revert lo. induction ds as [|d ds IH]; simpl; intros lo H Ha; [done|].
  destruct H as (? & ? & H).
  destruct (Z.leb_spec (endIndex d) a); [lia|].
  rewrite (IH _ H) by lia. done.
Qed.

(** Replacements never move an offset to the left of where the text before
    it ends. *)
Lemma shift_lower (edits : gmap str str) (lo : Z) (ds : list CssVariable)
  (hi a : Z) :
  Chain lo ds hi -> lo <= a -> 0 <= a - lo + shift edits ds a.
Proof.
  revert lo. induction ds as [|d ds IH]; simpl; intros lo H Ha; [lia|].
  destruct H as (? & ? & H).
  destruct (Z.leb_spec (endIndex d) a).
  - specialize (IH _ H ltac:(lia)). unfold growth.
    destruct (replacement edits d) as [e|]; [|lia].
    pose proof (len_nonneg e). lia.
  - rewrite (shift_before edits _ _ _ _ H) by lia. lia.
Qed.

(** A stretch of the original text that no changed span touches is found
    in the rebuilt text, moved by the growth of the replacements before it. *)
Lemma rebuild_segment (edits : gmap str str) (css : str) (ds : list CssVariable)
  (pos a b : Z) :
  Chain pos ds (len css) -> 0 <= pos <= a -> a <= b <= len css ->
  Forall (clearOf edits a b) ds ->
  slice (rebuild edits css pos ds)
    (a - pos + shift edits ds a) (b - pos + shift edits ds a)
  = slice css a b.
Proof.
  revert pos. induction ds as [|d ds IH]; simpl; intros pos H Hp Hab HF.
  - rewrite sliceFrom_nonneg by lia. rewrite !slice_nonneg by lia.
    rewrite drop_drop. f_equal; [lia|]. f_equal. lia.
  - destruct H as (? & ? & H). inversion HF as [|? ? Hd HF']; subst.
    destruct (Chain_bounds _ _ _ H) as [? _].
    unfold growth. destruct (replacement edits d) as [e|] eqn:Hr.
    + destruct (Z.leb_spec (endIndex d) a).
      * pose proof (shift_lower edits _ _ _ a H ltac:(lia)).
        rewrite app_assoc.
        replace (a - pos + (len e - (endIndex d - startIndex d) + shift edits ds a))
          with (len (slice css pos (startIndex d) ++ e)
                + (a - endIndex d + shift edits ds a))
          by (rewrite len_app, len_slice by lia; lia).
        replace (b - pos + (len e - (endIndex d - startIndex d) + shift edits ds a))
          with (len (slice css pos (startIndex d) ++ e)
                + (b - endIndex d + shift edits ds a))
          by (rewrite len_app, len_slice by lia; lia).
        rewrite slice_app_r by lia. apply IH; [done|lia|lia|done].
      * destruct Hd as [Hd|[Hd|Hd]]; [congruence|lia|].
        rewrite (shift_before edits _ _ _ _ H) by lia.
        rewrite !Z.add_0_r.
        rewrite slice_app_l by (rewrite ?len_slice by lia; lia).
        rewrite slice_slice by lia. f_equal; lia.
    + replace (if endIndex d <=? a then 0 else 0) with 0
        by now destruct (endIndex d <=? a).
      simpl. apply IH; [|lia|lia|done].
      eapply Chain_weaken; [exact H|lia|lia].
Qed.

Lemma charAt_slice (s : str) (p : Z) :
  0 <= p -> charAt s p = head (slice s p (p + 1)).
Proof.
  intros. unfold charAt. destruct (Z.ltb_spec p 0); [lia|].
  rewrite slice_nonneg by lia.
  replace (Z.to_nat (p + 1 - p)) with 1%nat by lia.
  assert (s !! Z.to_nat p = drop (Z.to_nat p) s !! 0%nat) as ->
    by (rewrite lookup_drop; f_equal; lia).
  now destruct (drop (Z.to_nat p) s).
Qed.

(** The span of an unchanged declaration is touched by no changed span. *)
Lemma Chain_clearOf (edits : gmap str str) (lo : Z) (ds : list CssVariable)
  (hi : Z) (d : CssVariable) :
  Chain lo ds hi -> d ∈ ds -> replacement edits d = None ->
  Forall (clearOf edits (startIndex d) (endIndex d)) ds.
Proof.
  revert lo. induction ds as [|d' ds IH]; simpl; intros lo H Hin Hd.
  - constructor.
  - destruct H as (? & ? & H).
    destruct (Chain_bounds _ _ _ H) as [_ HF].
    apply elem_of_cons in Hin as [->|Hin].
    + constructor; [now left|].
      eapply Forall_impl; [exact HF|]. simpl. intros x [? ?].
      right. right. lia.
    + constructor; [|now apply (IH _ H)].
      rewrite Forall_forall in HF. destruct (HF _ Hin).
      right. left. lia.
Qed.

Lemma Chain_StronglySorted (lo : Z) (ds : list CssVariable) (hi : Z) :
  Chain lo ds hi ->
  StronglySorted (fun a b => endIndex a < startIndex b) ds.
Proof.
  revert lo. induction ds as [|d ds IH]; simpl; intros lo H; [constructor|].
  destruct H as (? & ? & H). constructor; [now apply (IH _ H)|].
  destruct (Chain_bounds _ _ _ H) as [_ HF].
  eapply Forall_impl; [exact HF|]. simpl. intros; lia.
Qed.

Lemma Chain_wellformed (lo : Z) (ds : list CssVariable) (hi : Z) :
  Chain lo ds hi -> Forall (fun d => startIndex d <= endIndex d) ds.
Proof.
  revert lo. induction ds as [|d ds IH]; simpl; intros lo H; [constructor|].
  destruct H as (? & ? & H). constructor; [done|now apply (IH _ H)].
Qed.

Lemma separated_ascending (ds : list CssVariable) :
  Forall (fun d => startIndex d <= endIndex d) ds ->
  StronglySorted (fun a b => endIndex a < startIndex b) ds ->
  StronglySorted (fun a b => startIndex a < startIndex b) ds.
Proof.
  intros Hw Hs. induction Hs as [|d ds Hs IH Hd]; [constructor|].
  inversion Hw as [|? ? Hd' Hw']; subst.
  constructor; [now apply IH|].
  eapply Forall_impl; [exact Hd|]. simpl. intros; lia.
Qed.

Lemma separated_disjoint (ds : list CssVariable) :
  StronglySorted (fun a b => endIndex a < startIndex b) ds ->
  ForallOrdPairs disjointSpans ds.
Proof.
  intros Hs. induction Hs as [|d ds Hs IH Hd]; [constructor|].
  constructor; [|done].
  apply List.Forall_forall. rewrite Forall_forall in Hd.
  intros x Hx%list_elem_of_In. left. specialize (Hd _ Hx). simpl in Hd. lia.
Qed.

Lemma Recorded_value (css : str) (d : CssVariable) :
  Recorded css d -> slice css (startIndex d) (endIndex d) = value d.
Proof. intros (st & c & e & _ & _ & _ & ->). reflexivity. Qed.

(** ** Identifiers *)

Lemma lit_inj (s t : String.string) : lit s = lit t -> s = t.
Proof.
  revert t. induction s as [|a s IH]; intros [|b t]; simpl; try done.
  intros [= Hab Hst]. f_equal; [|now apply IH].
  rewrite <- (ascii_N_embedding a), <- (ascii_N_embedding b). now rewrite Hab.
Qed.

Lemma to_int_not_nil (n : Z) :
  Z.to_int n <> Decimal.Pos Decimal.Nil /\ Z.to_int n <> Decimal.Neg Decimal.Nil.
Proof.
  destruct n as [|q|q]; simpl; split; try done;
    intros [= H]; now apply DecimalPos.Unsigned.to_uint_nonnil in H.
Qed.

Lemma ofNumber_inj (a b : Z) : ofNumber a = ofNumber b -> a = b.
Proof.
  unfold ofNumber. intros H%lit_inj.
  apply (f_equal NilZero.int_of_string) in H.
  destruct (to_int_not_nil a), (to_int_not_nil b).
  rewrite !NilZero.isi in H by done.
  injection H as H. rewrite <- (DecimalZ.of_to a), <- (DecimalZ.of_to b).
  now rewrite H.
Qed.

Lemma digits_no_dash (d : Decimal.uint) :
  Ch.dash ∉ lit (NilEmpty.string_of_uint d).
Proof.
  induction d; simpl; rewrite ?not_elem_of_cons; try split; try done;
    apply not_elem_of_nil.
Qed.

(** The digits of a number that is not negative hold no dash. *)
Lemma ofNumber_no_dash (n : Z) : 0 <= n -> Ch.dash ∉ ofNumber n.
Proof.
  intros Hn. unfold ofNumber. destruct n as [|q|q]; [| |lia].
  - simpl. rewrite !not_elem_of_cons. split; [done|apply not_elem_of_nil].
  - simpl. pose proof (DecimalPos.Unsigned.to_uint_nonnil q).
    destruct (Pos.to_uint q) eqn:E; [done|..]; rewrite <- E;
      unfold NilZero.string_of_uint; rewrite E; rewrite <- E;
      apply digits_no_dash.
Qed.

Lemma split_at_first (c : char) (l1 r1 l2 r2 : str) :
  c ∉ l1 -> c ∉ l2 -> l1 ++ c :: r1 = l2 ++ c :: r2 -> l1 = l2 /\ r1 = r2.
Proof.
  revert l2. induction l1 as [|x l1 IH]; intros [|y l2] H1 H2; simpl.
  - now intros [= ->].
  - intros [= -> _]. exfalso. apply H2. left.
  - intros [= -> _]. exfalso. apply H1. left.
  - intros [= -> H]. apply not_elem_of_cons in H1, H2.
    destruct (IH l2) as [-> ->]; [tauto|tauto|done|done].
Qed.

Lemma mkId_inj (a b a' b' : Z) :
  0 <= a -> 0 <= a' -> mkId a b = mkId a' b' -> a = a' /\ b = b'.
Proof.
  unfold mkId. simpl. intros Ha Ha' H.
  apply split_at_first in H as [H1 H2]; [|now apply ofNumber_no_dash..].
  split; now apply ofNumber_inj.
Qed.

Lemma Recorded_id (css : str) (d : CssVariable) :
  Recorded css d ->
  exists at_, 0 <= at_ /\ id d = mkId at_ (startIndex d).
Proof.
  intros (st & c & e & HR & _ & _ & ->).
  destruct (Reach_inv _ _ HR) as (? & _). exists (i st). split; [lia|done].
Qed.

Lemma ids_distinct (css : str) (ds : list CssVariable) :
  Forall (Recorded css) ds ->
  StronglySorted (fun a b => startIndex a < startIndex b) ds ->
  NoDup (id <$> ds).
Proof.
  intros HF Hs. induction Hs as [|d ds Hs IH Hd]; simpl; [constructor|].
  inversion HF as [|? ? Hr HF']; subst.
  constructor; [|now apply IH].
  intros (d' & Heq & Hin)%list_elem_of_fmap.
  rewrite Forall_forall in Hd, HF'.
  destruct (Recorded_id _ _ Hr) as (a & ? & Ha).
  destruct (Recorded_id _ _ (HF' _ Hin)) as (a' & ? & Ha').
  rewrite Ha, Ha' in Heq. apply mkId_inj in Heq as [_ Heq]; [|done..].
  specialize (Hd _ Hin). simpl in Hd. lia.
Qed.

(** ** Blocks and selectors *)

(** After an iteration the scanner is inside a block either because the
    iteration opened one at top level, taking its trimmed prelude as the
    current selector, or because it was inside already, and then the current
    selector is kept. *)
Lemma body_block (css : str) (st : state) :
  0 < braceDepth (body css st) ->
  (inComment st = false /\ inString st = None /\
   charAt css (i st) = Some Ch.lbrace /\ braceDepth st = 0 /\
   currentSelector (body css st) = trim (buffer st)) \/
  (0 < braceDepth st /\ currentSelector (body css st) = currentSelector st).
Proof.
  destruct (body_cases css st) as [_|(c & e & F & _ & Hs & Hd & _)].
  2:{ intros ?. right. split; [lia|done]. }
  unfold body, iteration.
  repeat case_match; simpl; intros Hd;
    try (right; split; [lia|done]);
    try (match goal with
         | E : tryDeclaration _ _ = Some _ |- _ =>
             apply tryDeclaration_Some in E
               as (? & ? & ? & _ & _ & _ & _ & _ & _ & _ & _ & ->)
         end; simpl; right; split; [lia|done]).
  all: match goal with
       | E : (_ =? 0) = true |- _ => apply Z.eqb_eq in E
       | E : (_ =? 0) = false |- _ => apply Z.eqb_neq in E
       end; try lia; try (right; split; [lia|done]).
  left.
  repeat match goal with
    | E : negb _ = false |- _ => apply negb_false_iff in E
    | E : isNull ?x = true |- _ => destruct x eqn:?; [discriminate|clear E]
    | E : isChar _ Ch.lbrace = true |- _ => apply isChar_Some in E
    end.
  done.
Qed.


(** ** Finding a declaration *)

(** A terminator right at the start of the value scan ends it at once. *)
Lemma scanValueEnd_immediate (css : str) (k : Z) :
  isTerminator (charAt css k) = true -> scanValueEnd css k None 0 = k.
Proof.
  intros Ht. unfold isTerminator in Ht.
  assert (Hk : k < len css).
  { destruct (charAt css k) as [c|] eqn:E; [|done].
    apply charAt_Some_range in E. lia. }
  rewrite scanValueEnd_equation_1.
  destruct (Z_lt_dec k (len css)); [|lia]. simpl.
  assert (Hq : quoteStep css k (charAt css k) None = None).
  { unfold quoteStep. destruct (charAt css k) as [c|]; [|done].
    simpl in *. apply orb_prop in Ht as [Ht|Ht];
      apply N.eqb_eq in Ht; subst c; reflexivity. }
  rewrite Hq. simpl.
  destruct (charAt css k) as [c|]; [|done]. simpl in *.
  apply orb_prop in Ht as [Ht|Ht]; apply N.eqb_eq in Ht; subst c; reflexivity.
Qed.

(** On the two dashes of a valid name inside a block, with the colon and the
    terminator found, the scanner records the declaration. *)
Lemma tryDeclaration_finds (css : str) (st : state) (c e : Z) :
  0 < braceDepth st ->
  charAt css (i st) = Some Ch.dash -> charAt css (i st + 1) = Some Ch.dash ->
  scanColon css (i st) None = c -> -1 < c ->
  validName (trim (slice css (i st) c)) = true ->
  scanValueEnd css (c + 1) None 0 = e -> -1 < e ->
  tryDeclaration css st =
  Some (set_i (push st (recorded css st c e))
          (if isChar (charAt css e) Ch.rbrace then e - 1 else e)).
Proof.
  intros Hd H1 H2 Hc Hc' Hn He He'. unfold tryDeclaration.
  rewrite H1, H2, Hc, Hn, He.
  destruct (Z.ltb_spec 0 (braceDepth st)); [|lia].
  destruct (Z.ltb_spec (-1) c); [|lia].
  destruct (Z.ltb_spec (-1) e); [|lia].
  simpl. unfold recorded. now destruct (isChar (charAt css e) Ch.rbrace).
Qed.

(** Outside comments and strings, an iteration on a dash goes to the
    detection of a declaration. *)
Lemma body_on_dash (css : str) (st : state) :
  inComment st = false -> inString st = None ->
  charAt css (i st) = Some Ch.dash ->
  variables (body css st) =
  match tryDeclaration css st with
  | Some st' => variables st'
  | None => variables st
  end.
Proof.
  intros Hc Hs H1. unfold body, iteration. rewrite Hc, Hs, H1. simpl.
  destruct (tryDeclaration css st); [done|].
  now destruct (braceDepth st =? 0).
Qed.

(** ** Quotes in the outer pass *)

(** Outside strings and comments a quote opens a string, whatever precedes
    it. *)
Lemma outer_quote_opens (css : str) (st : state) (q : char) :
  inComment st = false -> inString st = None ->
  charAt css (i st) = Some q -> q = Ch.dquote \/ q = Ch.squote ->
  inString (body css st) = Some q.
Proof.
  intros Hc Hs Hq Hqq. unfold body, iteration. rewrite Hc, Hs, Hq.
  now destruct Hqq as [-> | ->].
Qed.

(** Inside a string, a character that follows a backslash never ends it. *)
Lemma outer_escaped_stays (css : str) (st : state) (q : char) :
  inComment st = false -> inString st = Some q ->
  charAt css (i st - 1) = Some Ch.backslash ->
  inString (body css st) = Some q.
Proof.
  intros Hc Hs Hb. unfold body, iteration. rewrite Hc, Hs, Hb. simpl.
  rewrite andb_false_r. done.
Qed.

(** Inside a string, the quote that opened it ends it, unless a backslash
    precedes it. *)
Lemma outer_quote_closes (css : str) (st : state) (q : char) :
  inComment st = false -> inString st = Some q ->
  charAt css (i st) = Some q ->
  isChar (charAt css (i st - 1)) Ch.backslash = false ->
  inString (body css st) = None.
Proof.
  intros Hc Hs Hq Hb. unfold body, iteration. rewrite Hc, Hs, Hq, Hb. simpl.
  now rewrite N.eqb_refl.
Qed.

(** ** The selector buffer and the text *)

Lemma slice_cons (s : str) (k e : Z) (c : char) :
  0 <= k < e -> charAt s k = Some c ->
  slice s k e = c :: slice s (k + 1) e.
Proof.
  intros Hk Hc. rewrite !slice_nonneg by lia.
  unfold charAt in Hc. destruct (Z.ltb_spec k 0); [lia|].
  rewrite (drop_S _ _ _ Hc).
  replace (Z.to_nat (e - k)) with (S (Z.to_nat (e - (k + 1)))) by lia.
  simpl. do 2 f_equal. f_equal. lia.
Qed.











(** The states of a scan lie on one line. *)
Lemma Steps_snoc (css : str) (a b : state) :
  Steps css a b -> i b < len css -> Steps css a (body css b).
Proof.
  induction 1 as [s|s s' Hlt HS IH]; intros Hb.
  - econstructor; [done|constructor].
  - econstructor; [done|]. now apply IH.
Qed.

Lemma Reach_Steps (css : str) (st : state) : Reach css st -> Steps css init st.
Proof.
  induction 1 as [|st HR IH Hlt]; [constructor|]. now apply Steps_snoc.
Qed.

Lemma Steps_le (css : str) (a b : state) : Steps css a b -> i a <= i b.
Proof.
  induction 1 as [s|s s' Hlt HS IH]; [lia|].
  pose proof (body_progress css s). lia.
Qed.

Lemma Steps_eq (css : str) (a b : state) :
  Steps css a b -> i b <= i a -> a = b.
Proof.
  destruct 1 as [s|s s' Hlt HS]; [done|]. intros Hle.
  apply Steps_le in HS. pose proof (body_progress css s). lia.
Qed.

Lemma Steps_linear (css : str) (a b c : state) :
  Steps css a b -> Steps css a c -> Steps css b c \/ Steps css c b.
Proof.
  induction 1 as [s|s s' Hlt HS IH]; intros Hc; [now left|].
  inversion Hc as [|? ? _ Hc']; subst.
  - right. now econstructor.
  - now apply IH.
Qed.

Lemma Accumulates_Steps (css : str) (a b : state) :
  Accumulates css a b -> Steps css a b.
Proof.
  induction 1 as [s|s s' Hlt _ _ _ IH]; [constructor|]. now econstructor.
Qed.

Lemma Accumulates_no_brace (css : str) (a sp q : state) :
  Accumulates css a sp -> Steps css a q -> i q < i sp ->
  isPlainBrace css q = false.
Proof.
  induction 1 as [s|s s' Hlt Hd Hb Hacc IH]; intros Hq Hi.
  - apply Steps_le in Hq. lia.
  - inversion Hq as [|? ? _ Hq']; subst; [done|]. now apply IH.
Qed.

Lemma PreludeStart_Reach (css : str) (s0 sp : state) :
  PreludeStart css s0 sp -> Reach css s0.
Proof.
  intros [[->|(sq & HR & Hlt & _ & ->)] _]; [constructor|now constructor].
Qed.

Lemma PreludeStart_before (css : str) (s0 s1 sp : state) :
  PreludeStart css s0 sp -> PreludeStart css s1 sp -> Steps css s0 s1 ->
  s0 = s1.
Proof.
  intros H0 H1 HS.
  destruct (Z.le_gt_cases (i s1) (i s0)) as [Hle|Hgt];
    [now apply (Steps_eq css)|exfalso].
  pose proof (PreludeStart_Reach _ _ _ H0) as HR0.
  destruct (Reach_inv _ _ HR0) as ([Hi0 _] & _).
  destruct H0 as [_ Hacc0], H1 as [[->|(sq & HRq & Hlt & Hbrace & ->)] Hacc1];
    [simpl in Hgt; lia|].
  assert (Hq : Steps css s0 sq).
  { destruct (Steps_linear css init s0 sq) as [Hq|Hq];
      [now apply Reach_Steps..|done|].
    inversion Hq as [|? ? _ Hq']; subst; [constructor|].
    apply Steps_le in Hq'. lia. }
  rewrite (Accumulates_no_brace css s0 sp sq Hacc0 Hq) in Hbrace; [done|].
  apply Accumulates_Steps, Steps_le in Hacc1.
  pose proof (body_progress css sq). lia.
Qed.

(** The prelude of a block has one start. *)
Lemma PreludeStart_unique (css : str) (s0 s1 sp : state) :
  PreludeStart css s0 sp -> PreludeStart css s1 sp -> s0 = s1.
Proof.
  intros H0 H1.
  destruct (Steps_linear css init s0 s1) as [HS|HS];
    [eapply Reach_Steps, PreludeStart_Reach; eassumption..| |].
  - now apply (PreludeStart_before css s0 s1 sp).
  - symmetry. now apply (PreludeStart_before css s1 s0 sp).
Qed.

(** A text without slashes and quotes is its own prelude text. *)
Lemma preludeText_plain (s : str) :
  Ch.slash ∉ s -> Ch.dquote ∉ s -> Ch.squote ∉ s -> preludeText s = s.
Proof.
  unfold preludeText. generalize (@None char) at 2.
  induction s as [|c s IH]; intros prev H1 H2 H3; [done|].
  apply not_elem_of_cons in H1 as [H1 H1'], H2 as [H2 H2'], H3 as [H3 H3'].
  cbn [strip isNull negb andb sameChar isChar].
  apply not_eq_sym, N.eqb_neq in H1, H2, H3. rewrite H1, H2, H3. simpl.
  f_equal. now apply IH.
Qed.

Example preludeText_examples :
  preludeText (lit ":root ") = lit ":root " /\
  preludeText (lit " a[title='}'] /* x { */ b ") = lit " a[title=]  b " /\
  preludeText (lit "a /b/ 'it\'s' c") = lit "a /b/  c".
Proof. vm_compute. repeat split; reflexivity. Qed.

(** * The claims *)

(** C1. Patching a text with the declarations scanned from it and no edits
    gives back the text unchanged. *)
Theorem patch_without_edits (css : str) :
  exists ds, parseCssVariables css = Some ds /\ patchCss css ds ∅ = css.
Proof.
  destruct (parse_Reach css) as (st & _ & _ & Hp).
  exists (variables st). split; [done|].
  unfold patchCss. generalize (sortDesc (variables st)).
  intros l. induction l as [|v l IH] using rev_ind; [done|].
  rewrite foldl_snoc, IH. unfold patchOne. now rewrite lookup_empty.
Qed.

(** C2. For every declaration of a scan, the slice of the text from its
    [startIndex] to its [endIndex] is its [value]. *)
Theorem value_span (css : str) :
  exists ds, parseCssVariables css = Some ds /\
    Forall (fun d => slice css (startIndex d) (endIndex d) = value d) ds.
Proof.
  destruct (parse_Reach css) as (st & HR & _ & Hp).
  exists (variables st). split; [done|].
  destruct (Reach_inv _ _ HR) as (_ & _ & HF).
  eapply Forall_impl; [exact HF|]. apply Recorded_value.
Qed.

(** C3. In the list a scan returns, no declaration ends before it starts,
    the start indices are strictly ascending, and the spans of two
    declarations never overlap. *)
Theorem spans_ascending_disjoint (css : str) :
  exists ds, parseCssVariables css = Some ds /\
    Forall (fun d => startIndex d <= endIndex d) ds /\
    StronglySorted (fun a b => startIndex a < startIndex b) ds /\
    ForallOrdPairs disjointSpans ds.
Proof.
  destruct (parse_Reach css) as (st & HR & _ & Hp).
  exists (variables st). split; [done|].
  destruct (Reach_inv _ _ HR) as (_ & HC & _).
  pose proof (Chain_wellformed _ _ _ HC) as Hw.
  pose proof (Chain_StronglySorted _ _ _ HC) as Hs.
  split; [done|]. split.
  - now apply separated_ascending.
  - now apply separated_disjoint.
Qed.

(** C4. The patcher changes nothing but the spans of the declarations whose
    edit differs from their value: its result is the text with exactly those
    spans replaced; every stretch of the text that touches none of them,
    and so every byte outside them, is in the result at its offset moved by
    the replacements before it; and the span of a declaration without an edit,
    or with an edit equal to its value, is reproduced as it was. *)
Theorem patch_frame (css : str) (edits : gmap str str) :
  exists ds, parseCssVariables css = Some ds /\
    patchCss css ds edits = rebuild edits css 0 ds /\
    (forall a b, 0 <= a <= b -> b <= len css ->
       Forall (clearOf edits a b) ds ->
       slice (patchCss css ds edits)
         (a + shift edits ds a) (b + shift edits ds a) = slice css a b) /\
    (forall p c, charAt css p = Some c ->
       Forall (clearOf edits p (p + 1)) ds ->
       charAt (patchCss css ds edits) (p + shift edits ds p) = Some c) /\
    Forall (fun d =>
              edits !! id d = None \/ edits !! id d = Some (value d) ->
              slice (patchCss css ds edits)
                (startIndex d + shift edits ds (startIndex d))
                (endIndex d + shift edits ds (startIndex d)) = value d) ds.
Proof.
  destruct (parse_Reach css) as (st & HR & Hi & Hp).
  exists (variables st). split; [done|].
  destruct (Reach_inv _ _ HR) as (_ & HC & HF). rewrite Hi in HC.
  rewrite (patchCss_rebuild edits css _ HC).
  assert (Hseg : forall a b, 0 <= a <= b -> b <= len css ->
            Forall (clearOf edits a b) (variables st) ->
            slice (rebuild edits css 0 (variables st))
              (a + shift edits (variables st) a)
              (b + shift edits (variables st) a) = slice css a b).
  { intros a b ? ? Hc.
    rewrite <- (rebuild_segment edits css (variables st) 0 a b) by (done || lia).
    f_equal; lia. }
  split; [done|]. split; [exact Hseg|]. split.
  - intros p c Hpc Hc. pose proof (charAt_Some_range _ _ _ Hpc).
    pose proof (shift_lower edits _ _ _ p HC ltac:(lia)).
    rewrite charAt_slice by lia.
    replace (p + shift edits (variables st) p + 1)
      with (p + 1 + shift edits (variables st) p) by lia.
    rewrite Hseg by (done || lia).
    rewrite <- charAt_slice by lia. done.
  - apply Forall_forall. intros d Hd Hr%replacement_None.
    destruct (Chain_bounds _ _ _ HC) as [_ Hb].
    rewrite Forall_forall in Hb, HF. destruct (Hb _ Hd).
    pose proof (Chain_wellformed _ _ _ HC) as Hw.
    rewrite Forall_forall in Hw. specialize (Hw _ Hd).
    rewrite Hseg; [|lia|lia|].
    + apply Recorded_value. now apply HF.
    + now apply (Chain_clearOf edits _ _ _ _ HC).
Qed.

(** The selective edit of C4: in [":root{--a: 1px; --b: 2px;}"] only the
    value of [--a] is edited; the value of [--b] is found unchanged, four
    characters of the original after it being untouched as well. *)
Lemma patch_frame_witness :
  let css := lit ":root{--a: 1px; --b: 2px;}" in
  let edits : gmap str str := {[ lit "6-10" := lit " 3px" ]} in
  exists ds, parseCssVariables css = Some ds /\
    patchCss css ds edits = lit ":root{--a: 3px; --b: 2px;}" /\
    slice (patchCss css ds edits) 20 24 = lit " 2px" /\
    charAt (patchCss css ds edits) 25 = Some Ch.rbrace.
Proof.
  intros css edits.
  destruct (patch_frame css edits) as (ds & Hp & Hr & Hseg & Hch & _).
  exists ds. split; [exact Hp|].
  assert (Hds : parseCssVariables css =
                Some [ {| id := lit "6-10"; name := lit "--a";
                          value := lit " 1px"; startIndex := 10;
                          endIndex := 14; selector := lit ":root" |};
                       {| id := lit "16-20"; name := lit "--b";
                          value := lit " 2px"; startIndex := 20;
                          endIndex := 24; selector := lit ":root" |} ])
    by (vm_compute; reflexivity).
  rewrite Hds in Hp. injection Hp as <-.
  split; [rewrite Hr; vm_compute; reflexivity|]. split.
  - apply (Hseg 20 24); [lia|vm_compute; discriminate|].
    repeat constructor; unfold clearOf; simpl; lia.
  - apply (Hch 25 Ch.rbrace); [vm_compute; reflexivity|].
    repeat constructor; unfold clearOf; simpl; lia.
Defined.



(** C6. The outer pass at a quote that follows a backslash, outside any
    string: the scanner enters string mode, where the forward scans, at the
    same place, do not; the block that follows is read as string text and
    its declaration is lost. *)
Theorem escaped_quote_opens_string :
  let css := lit "a\'b{--x:1;}" in
  charAt css 1 = Some Ch.backslash /\
  charAt css 2 = Some Ch.squote /\
  inString (body css (body css init)) = None /\
  inString (body css (body css (body css init))) = Some Ch.squote /\
  quoteStep css 2 (charAt css 2) None = None /\
  parseCssVariables css = Some [].
Proof. vm_compute. repeat split; reflexivity. Qed.

(** C7. When the scan of a value reaches the end of the text without a
    terminator, the iteration on that candidate records nothing; a scan only
    returns declarations that end at a terminator, and an unterminated
    declaration gives an empty list. *)
Theorem unterminated_value :
  (forall css st,
     scanValueEnd css (scanColon css (i st) None + 1) None 0 = -1 ->
     variables (body css st) = variables st) /\
  (forall css, exists ds, parseCssVariables css = Some ds /\
     Forall (fun d => isTerminator (charAt css (endIndex d)) = true) ds) /\
  parseCssVariables (lit ":root{--a: 1px") = Some [].
Proof.
  split; [|split].
  - intros css st He.
    destruct (body_cases css st) as [(Hv & _)|(c & e & F & _)]; [done|].
    pose proof (charAt_Some_range _ _ _ (finds_dash _ _ _ _ F)).
    destruct F. subst c. lia.
  - intros css. destruct (parse_Reach css) as (stf & HR & _ & Hp).
    exists (variables stf). split; [done|].
    destruct (Reach_inv _ _ HR) as (_ & _ & HF).
    eapply Forall_impl; [exact HF|]. simpl.
    intros d (st & c & e & _ & _ & F & ->). apply F.
  - vm_compute. reflexivity.
Qed.

(** The candidate of C7 at its two dashes: the value runs to the end of the
    text and nothing is recorded. *)
Lemma unterminated_value_witness :
  let css := lit ":root{--a: 1px" in
  let st := {| i := 6; variables := []; currentSelector := lit ":root";
               braceDepth := 1; inComment := false; inString := None;
               buffer := [] |} in
  scanValueEnd css (scanColon css (i st) None + 1) None 0 = -1 /\
  variables (body css st) = variables st.
Proof.
  split; [vm_compute; reflexivity|].
  apply (proj1 unterminated_value). vm_compute. reflexivity.
Defined.

(** C8. The id of a declaration is the index of its two dashes, a dash, and
    the index where its value starts; the ids of one scan are pairwise
    distinct; and a scan of the same text gives the same ids. *)
Theorem ids_of_scan (css : str) :
  exists ds, parseCssVariables css = Some ds /\
    Forall (fun d => exists st colonIndex valueEndIndex,
              Reach css st /\ Finds css st colonIndex valueEndIndex /\
              d = recorded css st colonIndex valueEndIndex /\
              startIndex d = colonIndex + 1 /\
              id d = ofNumber (i st) ++ [Ch.dash] ++ ofNumber (startIndex d)) ds /\
    NoDup (id <$> ds) /\
    (fun l : list CssVariable => id <$> l) <$> parseCssVariables css
    = Some (id <$> ds).
Proof.
  destruct (parse_Reach css) as (stf & HR & _ & Hp).
  exists (variables stf). split; [done|].
  destruct (Reach_inv _ _ HR) as (_ & HC & HF).
  split; [|split].
  - eapply Forall_impl; [exact HF|]. simpl.
    intros d (st & c & e & HRs & _ & F & ->). now exists st, c, e.
  - apply (ids_distinct css); [done|].
    apply separated_ascending;
      [now apply (Chain_wellformed _ _ _ HC)|now apply (Chain_StronglySorted _ _ _ HC)].
  - now rewrite Hp.
Qed.

(** C9. Outside comments and strings a [}] lowers the nesting depth by one,
    also at and below zero, and a [{] raises it by one; at a depth of zero or
    less no declaration is looked for; so after a stray [}] the block that
    follows yields nothing. *)
Theorem stray_closing_brace :
  (forall css st,
     inComment st = false -> inString st = None ->
     charAt css (i st) = Some Ch.rbrace ->
     braceDepth (body css st) = braceDepth st - 1) /\
  (forall css st,
     inComment st = false -> inString st = None ->
     charAt css (i st) = Some Ch.lbrace ->
     braceDepth (body css st) = braceDepth st + 1) /\
  (forall css st,
     braceDepth st <= 0 -> variables (body css st) = variables st) /\
  braceDepth (body (lit "} .a{--x: 1;}") init) = -1 /\
  parseCssVariables (lit "} .a{--x: 1;}") = Some [].
Proof.
  split; [|split; [|split; [|split]]].
  - intros css st Hc Hs Hb. unfold body, iteration. now rewrite Hc, Hs, Hb.
  - intros css st Hc Hs Hb. unfold body, iteration. now rewrite Hc, Hs, Hb.
  - intros css st Hd.
    destruct (body_cases css st) as [(Hv & _)|(c & e & F & _)]; [done|].
    destruct F. lia.
  - reflexivity.
  - vm_compute. reflexivity.
Qed.

(** The stray [}] of C9: the depth goes from zero to minus one, and the [{]
    that follows brings it back to zero only. *)
Lemma stray_closing_brace_witness :
  let css := lit "}{" in
  braceDepth (body css init) = 0 - 1 /\
  braceDepth (body css (body css init)) = 0 - 1 + 1.
Proof.
  split.
  - apply (proj1 stray_closing_brace); reflexivity.
  - rewrite (proj1 (proj2 stray_closing_brace)) by reflexivity.
    rewrite (proj1 stray_closing_brace) by reflexivity. reflexivity.
Defined.

(** C10. When the colon of a valid name is followed at once by a terminator,
    the scanner records a declaration with the empty value, its start index
    equal to its end index. *)
Theorem empty_value_recorded :
  (forall css st colonIndex,
     inComment st = false -> inString st = None -> 0 < braceDepth st ->
     charAt css (i st) = Some Ch.dash -> charAt css (i st + 1) = Some Ch.dash ->
     scanColon css (i st) None = colonIndex -> -1 < colonIndex ->
     validName (trim (slice css (i st) colonIndex)) = true ->
     isTerminator (charAt css (colonIndex + 1)) = true ->
     exists d, variables (body css st) = variables st ++ [d] /\
       name d = trim (slice css (i st) colonIndex) /\
       value d = [] /\
       startIndex d = colonIndex + 1 /\ endIndex d = colonIndex + 1) /\
  (exists d, parseCssVariables (lit ":root{--a:;}") = Some [d] /\
     name d = lit "--a" /\ value d = [] /\ startIndex d = endIndex d).
Proof.
  split.
  - intros css st c Hc Hs Hd H1 H2 Hcol Hc' Hn Ht.
    exists (recorded css st c (c + 1)).
    rewrite (body_on_dash css st Hc Hs H1).
    rewrite (tryDeclaration_finds css st c (c + 1)); try done; try lia.
    + repeat split; try done. simpl. apply slice_empty. lia.
    + now apply scanValueEnd_immediate.
  - eexists. split; [vm_compute; reflexivity|]. repeat split.
Qed.

(** The candidate of C10 in [":root{--a:;}"], at its two dashes. *)
Lemma empty_value_recorded_witness :
  let css := lit ":root{--a:;}" in
  let st := {| i := 6; variables := []; currentSelector := lit ":root";
               braceDepth := 1; inComment := false; inString := None;
               buffer := [] |} in
  exists d, variables (body css st) = variables st ++ [d] /\
    name d = trim (slice css (i st) 9) /\
    value d = [] /\ startIndex d = 9 + 1 /\ endIndex d = 9 + 1.
Proof.
  apply (proj1 empty_value_recorded); try reflexivity; simpl; lia.
Defined.

(** * The examples of the specification *)

Example scan_two_declarations :
  parseCssVariables (lit ":root{--a: 1px; --b: 2px;}") =
  Some [ {| id := lit "6-10"; name := lit "--a"; value := lit " 1px";
            startIndex := 10; endIndex := 14; selector := lit ":root" |};
         {| id := lit "16-20"; name := lit "--b"; value := lit " 2px";
            startIndex := 20; endIndex := 24; selector := lit ":root" |} ].
Proof. vm_compute. reflexivity. Qed.

Example scan_function_value :
  (fun l : list CssVariable => value <$> l)
    <$> parseCssVariables (lit ".x{--c: var(--d, 1px); }")
  = Some [lit " var(--d, 1px)"].
Proof. vm_compute. reflexivity. Qed.

(** A semicolon in a comment or in a string before a declaration ends
    nothing; a brace in a string opens nothing. *)
Example scan_after_comment_and_string :
  (fun l : list CssVariable => (fun d => (name d, value d, selector d)) <$> l)
    <$> parseCssVariables (lit ".a{/* x; } */ content: '};{'; --b: 1;}")
  = Some [(lit "--b", lit " 1", lit ".a")].
Proof. vm_compute. reflexivity. Qed.

(** Only the prelude of the outermost block is kept as the selector. *)
Example scan_nested_block :
  (fun l : list CssVariable => (fun d => (name d, selector d)) <$> l)
    <$> parseCssVariables (lit "@media print { .a { --b: 1; } }")
  = Some [(lit "--b", lit "@media print")].
Proof. vm_compute. reflexivity. Qed.

(** The selector buffer holds neither comments nor quoted strings. *)
Example scan_prelude_with_string :
  (fun l : list CssVariable => selector <$> l)
    <$> parseCssVariables (lit " a[title='x'] /* note */ {--b: 1;}")
  = Some [lit "a[title=]"].
Proof. vm_compute. reflexivity. Qed.

(** A name with a space in it is no declaration. *)
Example scan_invalid_name :
  parseCssVariables (lit ".a{--b c: 1;}") = Some [].
Proof. vm_compute. reflexivity. Qed.

(** * Further properties of the scanner *)

Lemma scan_spec (css : str) : parseCssVariables css = Some (scan css).
Proof.
  destruct (parse_Reach css) as (st & _ & _ & Hp). unfold scan. now rewrite Hp.
Qed.

Lemma scan_Reach (css : str) :
  exists st, Reach css st /\ i st = len css /\ scan css = variables st.
Proof.
  destruct (parse_Reach css) as (st & HR & Hi & Hp).
  exists st. unfold scan. now rewrite Hp.
Qed.

Lemma scan_Recorded (css : str) : Forall (Recorded css) (scan css).
Proof.
  destruct (scan_Reach css) as (st & HR & _ & ->).
  now destruct (Reach_inv _ _ HR) as (_ & _ & HF).
Qed.

Lemma scan_Chain (css : str) : Chain 0 (scan css) (len css).
Proof.
  destruct (scan_Reach css) as (st & HR & Hi & ->).
  destruct (Reach_inv _ _ HR) as (_ & HC & _). now rewrite Hi in HC.
Qed.

Lemma scan_ids (css : str) : NoDup (id <$> scan css).
Proof.
  apply (ids_distinct css); [apply scan_Recorded|].
  pose proof (scan_Chain css) as HC.
  apply separated_ascending;
    [now apply (Chain_wellformed _ _ _ HC)|now apply (Chain_StronglySorted _ _ _ HC)].
Qed.

(** ** Trimming *)

Lemma trimStart_white (w s : str) :
  Forall (fun c => isWhite c = true) w -> trimStart (w ++ s) = trimStart s.
Proof. induction 1 as [|c w Hc _ IH]; simpl; [done|]. now rewrite Hc. Qed.

Lemma trimStart_all_white (w : str) :
  Forall (fun c => isWhite c = true) w -> trimStart w = [].
Proof.
  intros Hw. rewrite <- (app_nil_r w). now rewrite trimStart_white.
Qed.

Lemma trimStart_idem (s : str) : trimStart (trimStart s) = trimStart s.
Proof.
  induction s as [|c s IH]; simpl; [done|].
  destruct (isWhite c) eqn:E; [done|]. simpl. now rewrite E.
Qed.

(** What is left of the start of a text begins with a character that is
    not white space. *)
Lemma trimStart_head (s : str) (c : char) (t : str) :
  trimStart s = c :: t -> isWhite c = false.
Proof.
  induction s as [|x s IH]; simpl; [done|].
  destruct (isWhite x) eqn:E; [done|]. now intros [= <- _].
Qed.

Lemma trimStart_snoc (l : str) (c : char) :
  isWhite c = false -> exists l', trimStart (l ++ [c]) = l' ++ [c].
Proof.
  intros Hc. induction l as [|x l [l' IH]]; simpl.
  - rewrite Hc. now exists [].
  - destruct (isWhite x); [now exists l'|]. now exists (x :: l).
Qed.

Lemma trimEnd_white (s w : str) :
  Forall (fun c => isWhite c = true) w -> trimEnd (s ++ w) = trimEnd s.
Proof.
  intros Hw. unfold trimEnd. rewrite rev_app_distr.
  rewrite trimStart_white; [done|].
  apply List.Forall_rev. exact Hw.
Qed.

Lemma trimEnd_head (c : char) (t : str) :
  isWhite c = false -> exists u, trimEnd (c :: t) = c :: u.
Proof.
  intros Hc. unfold trimEnd. simpl.
  destruct (trimStart_snoc (rev t) c Hc) as [l' ->].
  rewrite rev_app_distr. simpl. now exists (rev l').
Qed.

Lemma trimEnd_idem (s : str) : trimEnd (trimEnd s) = trimEnd s.
Proof. unfold trimEnd. now rewrite rev_involutive, trimStart_idem. Qed.

(** Trimming twice is trimming once. *)
Lemma trim_idem (s : str) : trim (trim s) = trim s.
Proof.
  unfold trim. destruct (trimStart s) as [|c t] eqn:E; [done|].
  pose proof (trimStart_head _ _ _ E) as Hc.
  destruct (trimEnd_head c t Hc) as [u Hu].
  rewrite Hu. simpl. rewrite Hc. rewrite <- Hu. apply trimEnd_idem.
Qed.

(** White space around a text does not change what trimming leaves. *)
Lemma trim_padded (w1 s w2 : str) :
  Forall (fun c => isWhite c = true) w1 ->
  Forall (fun c => isWhite c = true) w2 ->
  trim (w1 ++ s ++ w2) = trim s.
Proof.
  intros H1 H2. unfold trim. rewrite trimStart_white by done.
  induction s as [|c s IH]; simpl.
  - now rewrite trimStart_all_white.
  - destruct (isWhite c); [done|].
    now rewrite (app_comm_cons s w2 c), trimEnd_white.
Qed.

(** ** Names, bounds and context of the declarations *)

Lemma validName_shape (n : str) :
  validName n = true ->
  exists rest, n = Ch.dash :: Ch.dash :: rest /\ rest <> [] /\
               Forall (fun c => nameChar c = true) rest.
Proof.
  destruct n as [|a [|b [|c rest]]]; simpl; try done.
  intros H. apply andb_prop in H as [H Hr]. apply andb_prop in H as [Ha Hb].
  apply N.eqb_eq in Ha, Hb. subst a b. exists (c :: rest).
  split; [done|]. split; [done|].
  apply List.Forall_forall. intros x Hx.
  apply andb_prop in Hr as [Hc Hr].
  destruct Hx as [<-|Hx]; [done|].
  rewrite forallb_forall in Hr. now apply Hr.
Qed.

(** X1. The name of every declaration of a scan is two dashes followed by at
    least one letter, digit, dash or underscore, and nothing else. *)
Theorem names_are_custom_properties (css : str) :
  exists ds, parseCssVariables css = Some ds /\
    Forall (fun d => exists rest,
              name d = Ch.dash :: Ch.dash :: rest /\ rest <> [] /\
              Forall (fun c => nameChar c = true) rest) ds.
Proof.
  exists (scan css). split; [apply scan_spec|].
  eapply Forall_impl; [apply scan_Recorded|]. simpl.
  intros d (st & c & e & _ & _ & F & ->). simpl.
  apply validName_shape, F.
Qed.

(** X2. Every value of a scan lies inside the text, right after a colon, and
    is as long as its span. *)
Theorem values_follow_a_colon (css : str) :
  exists ds, parseCssVariables css = Some ds /\
    Forall (fun d => 0 < startIndex d /\ endIndex d < len css /\
              charAt css (startIndex d - 1) = Some Ch.colon /\
              len (value d) = endIndex d - startIndex d) ds.
Proof.
  exists (scan css). split; [apply scan_spec|].
  eapply Forall_impl; [apply scan_Recorded|]. simpl.
  intros d (st & c & e & _ & _ & F & ->). simpl.
  pose proof (charAt_Some_range _ _ _ (finds_dash _ _ _ _ F)).
  pose proof (finds_colon_range _ _ _ _ F).
  pose proof (finds_end_range _ _ _ _ F).
  repeat split; try lia.
  - replace (c + 1 - 1) with c by lia.
    destruct (scanColon_range css (i st) None) as [Hn|[_ Hc]];
      rewrite (finds_colon _ _ _ _ F) in *; [lia|done].
  - apply len_slice; lia.
Qed.

Lemma charAt_elem_of (s : str) (k : Z) (c : char) : charAt s k = Some c -> c ∈ s.
Proof.
  unfold charAt. destruct (k <? 0); [done|]. apply list_elem_of_lookup_2.
Qed.

(** Without a [{] in the text the nesting depth never rises above zero. *)
Lemma Reach_no_block (css : str) (st : state) :
  Ch.lbrace ∉ css -> Reach css st -> braceDepth st <= 0.
Proof.
  intros Hno. induction 1 as [|st HR IH Hlt]; [done|].
  destruct (Z.le_gt_cases (braceDepth (body css st)) 0) as [|Hd]; [done|].
  destruct (body_block css st ltac:(lia)) as [(_ & _ & Hb & _)|[? _]]; [|lia].
  now apply charAt_elem_of in Hb.
Qed.

(** X3. A text without any [{] has no declarations: custom properties
    outside a block are not looked for. *)
Theorem no_block_no_declaration (css : str) :
  Ch.lbrace ∉ css -> parseCssVariables css = Some [].
Proof.
  intros Hno. rewrite scan_spec. f_equal.
  pose proof (scan_Recorded css) as HF.
  destruct (scan css) as [|d ds]; [done|].
  inversion HF as [|? ? (st & c & e & HR & _ & F & _) _]; subst.
  pose proof (Reach_no_block css st Hno HR).
  pose proof (finds_depth _ _ _ _ F). lia.
Qed.

(** A declaration at top level, outside any block. *)
Lemma no_block_no_declaration_witness :
  (Ch.lbrace ∉ lit "--a: 1px; --b: 2px;") /\
  parseCssVariables (lit "--a: 1px; --b: 2px;") = Some [].
Proof.
  assert (H : Ch.lbrace ∉ lit "--a: 1px; --b: 2px;").
  { intros Hin%list_elem_of_In. vm_compute in Hin.
    repeat (destruct Hin as [Hin|Hin]; [discriminate Hin|]). exact Hin. }
  split; [exact H|]. exact (no_block_no_declaration _ H).
Defined.

(** X4. Inside a comment or a quoted string an iteration records nothing and
    leaves the nesting depth, the current selector and the selector buffer
    as they are. *)
Theorem comments_and_strings_are_skipped (css : str) (st : state) :
  inComment st = true \/ inString st <> None ->
  variables (body css st) = variables st /\
  braceDepth (body css st) = braceDepth st /\
  currentSelector (body css st) = currentSelector st /\
  buffer (body css st) = buffer st.
Proof.
  intros H. unfold body, iteration.
  destruct (inComment st) eqn:Hc.
  - destruct (inString st); simpl;
      now destruct (isChar (charAt css (i st)) Ch.star
                    && isChar (charAt css (i st + 1)) Ch.slash).
  - destruct H as [H|H]; [done|].
    destruct (inString st) as [q|] eqn:Hs; [|done]. simpl.
    repeat case_match; done.
Qed.

(** The braces and the declaration inside the comment of
    ["/*{--a:1;}*/"], met with the comment open. *)
Lemma comments_and_strings_are_skipped_witness :
  let css := lit "/*{--a:1;}*/" in
  let st := body css init in
  (inComment st = true \/ inString st <> None) /\
  variables (body css st) = variables st /\
  braceDepth (body css st) = braceDepth st /\
  currentSelector (body css st) = currentSelector st /\
  buffer (body css st) = buffer st.
Proof.
  intros css st.
  assert (H : inComment st = true \/ inString st <> None) by (left; reflexivity).
  split; [exact H|]. exact (comments_and_strings_are_skipped css st H).
Defined.

(** The current selector is always a trimmed text. *)
Lemma Reach_selector_trimmed (css : str) (st : state) :
  Reach css st -> trim (currentSelector st) = currentSelector st.
Proof.
  induction 1 as [|st HR IH Hlt]; [done|].
  destruct (body_cases css st) as [_|(c & e & _ & _ & Hs & _)].
  2:{ now rewrite Hs. }
  unfold body, iteration.
  repeat case_match; simpl; try done; try apply trim_idem.
  match goal with
  | E : tryDeclaration _ _ = Some _ |- _ =>
      apply tryDeclaration_Some in E
        as (? & ? & _ & _ & _ & _ & _ & _ & _ & _ & _ & ->)
  end. done.
Qed.

(** X5. The selector of a declaration is never empty, and neither its
    selector nor its name has white space at either end. *)
Theorem selector_and_name_trimmed (css : str) :
  exists ds, parseCssVariables css = Some ds /\
    Forall (fun d => selector d <> [] /\
              trim (selector d) = selector d /\
              trim (name d) = name d) ds.
Proof.
  exists (scan css). split; [apply scan_spec|].
  eapply Forall_impl; [apply scan_Recorded|]. simpl.
  intros d (st & c & e & HR & _ & _ & ->). simpl.
  pose proof (Reach_selector_trimmed css st HR) as Ht.
  destruct (currentSelector st) as [|x sel] eqn:E; simpl.
  - split; [done|]. split; [vm_compute; reflexivity|apply trim_idem].
  - split; [done|]. split; [done|apply trim_idem].
Qed.

(** * Further properties of the patcher *)

Lemma insertDesc_Permutation (v : CssVariable) (l : list CssVariable) :
  insertDesc v l ≡ₚ v :: l.
Proof.
  induction l as [|w l IH]; simpl; [done|].
  destruct (startIndex w - startIndex v <=? 0); [done|].
  rewrite IH. apply perm_swap.
Qed.

Lemma sortDesc_Permutation (l : list CssVariable) : sortDesc l ≡ₚ l.
Proof.
  induction l as [|v l IH]; simpl; [done|].
  rewrite insertDesc_Permutation. now rewrite IH.
Qed.

Lemma foldl_ext_elem_of {A B} (f g : A -> B -> A) (a : A) (l : list B) :
  (forall x b, b ∈ l -> f x b = g x b) -> foldl f a l = foldl g a l.
Proof.
  revert a. induction l as [|b l IH]; simpl; intros a H; [done|].
  rewrite H by left. apply IH. intros x b' Hb'. apply H. now right.
Qed.

(** The patcher looks at the edits only through what they make it write. *)
Lemma patchCss_ext (css : str) (ds : list CssVariable) (e1 e2 : gmap str str) :
  (forall v, v ∈ ds -> replacement e1 v = replacement e2 v) ->
  patchCss css ds e1 = patchCss css ds e2.
Proof.
  intros H. unfold patchCss. apply foldl_ext_elem_of.
  intros x v Hv. rewrite !patchOne_replacement.
  rewrite H; [done|]. now rewrite <- (sortDesc_Permutation ds).
Qed.

(** X6. For the declarations of a scan, an entry of the edits under a key
    that is no declaration's id is ignored. *)
Theorem unknown_id_ignored (text css : str) (edits : gmap str str)
  (k e : str) :
  k ∉ id <$> scan css ->
  patchCss text (scan css) (<[k := e]> edits) = patchCss text (scan css) edits.
Proof.
  intros Hk. apply patchCss_ext. intros v Hv. unfold replacement.
  rewrite lookup_insert_ne; [done|].
  intros ->. apply Hk. now apply list_elem_of_fmap_2.
Qed.

(** An edit under an id of another text. *)
Lemma unknown_id_ignored_witness :
  let css := lit ":root{--a: 1px;}" in
  (lit "0-1" ∉ id <$> scan css) /\
  patchCss css (scan css) (<[lit "0-1" := lit "red"]> ∅)
  = patchCss css (scan css) ∅.
Proof.
  intros css.
  assert (H : lit "0-1" ∉ id <$> scan css).
  { intros Hin%list_elem_of_In. vm_compute in Hin.
    destruct Hin as [Hin|Hin]; [discriminate Hin|exact Hin]. }
  split; [exact H|]. exact (unknown_id_ignored css css ∅ _ _ H).
Defined.

Lemma insertDesc_sorted (v : CssVariable) (l : list CssVariable) :
  StronglySorted startsAfter l ->
  Forall (fun w => startIndex w <> startIndex v) l ->
  StronglySorted startsAfter (insertDesc v l).
Proof.
  induction 1 as [|w l Hs IH Hw]; simpl; intros Hne.
  - repeat constructor.
  - inversion Hne as [|? ? Hwv Hne']; subst.
    destruct (Z.leb_spec (startIndex w - startIndex v) 0).
    + constructor; [now constructor|].
      constructor; [unfold startsAfter; lia|].
      eapply Forall_impl; [exact Hw|]. unfold startsAfter. simpl. intros; lia.
    + constructor; [now apply IH|].
      rewrite insertDesc_Permutation.
      constructor; [unfold startsAfter; lia|done].
Qed.

Lemma sortDesc_sorted (l : list CssVariable) :
  NoDup (startIndex <$> l) -> StronglySorted startsAfter (sortDesc l).
Proof.
  induction l as [|v l IH]; simpl; intros Hnd; [constructor|].
  apply NoDup_cons in Hnd as [Hv Hnd].
  apply insertDesc_sorted; [now apply IH|].
  rewrite sortDesc_Permutation. apply Forall_forall.
  intros w Hw Heq. apply Hv. rewrite <- Heq. now apply list_elem_of_fmap_2.
Qed.

Lemma ascending_rev_sorted (ds : list CssVariable) :
  StronglySorted (fun a b => startIndex a < startIndex b) ds ->
  StronglySorted startsAfter (rev ds).
Proof.
  induction 1 as [|d ds Hs IH Hd]; simpl; [constructor|].
  apply StronglySorted_app_2; [|done|repeat constructor].
  intros x1 x2 Hx1 Hx2. apply list_elem_of_singleton in Hx2 as ->.
  rewrite Forall_forall in Hd. apply Hd.
  now apply list_elem_of_In, in_rev, list_elem_of_In in Hx1.
Qed.

Lemma ascending_starts_distinct (ds : list CssVariable) :
  StronglySorted (fun a b => startIndex a < startIndex b) ds ->
  NoDup (startIndex <$> ds).
Proof.
  induction 1 as [|d ds Hs IH Hd]; simpl; constructor; [|done].
  intros (d' & Heq & Hin)%list_elem_of_fmap.
  rewrite Forall_forall in Hd. specialize (Hd _ Hin). simpl in Hd. lia.
Qed.

(** X7. The patcher sorts the declarations it is given: the declarations of
    a scan may be passed in any order. *)
Theorem patch_order_independent (css : str) (edits : gmap str str) :
  exists ds, parseCssVariables css = Some ds /\
    forall ds', ds' ≡ₚ ds -> patchCss css ds' edits = patchCss css ds edits.
Proof.
  exists (scan css). split; [apply scan_spec|]. intros ds' Hp.
  pose proof (scan_Chain css) as HC.
  pose proof (separated_ascending _ (Chain_wellformed _ _ _ HC)
                (Chain_StronglySorted _ _ _ HC)) as Hasc.
  unfold patchCss. f_equal.
  rewrite (sortDesc_Chain _ _ _ HC).
  apply (StronglySorted_unique_strong startsAfter).
  - unfold startsAfter. intros; lia.
  - apply sortDesc_sorted. rewrite Hp. now apply ascending_starts_distinct.
  - now apply ascending_rev_sorted.
  - rewrite sortDesc_Permutation, Hp. apply Permutation_rev.
Qed.

(** The two declarations of [":root{--a: 1px; --b: 2px;}"], the second one
    first. *)
Lemma patch_order_independent_witness :
  let css := lit ":root{--a: 1px; --b: 2px;}" in
  let a := {| id := lit "6-10"; name := lit "--a"; value := lit " 1px";
              startIndex := 10; endIndex := 14; selector := lit ":root" |} in
  let b := {| id := lit "16-20"; name := lit "--b"; value := lit " 2px";
              startIndex := 20; endIndex := 24; selector := lit ":root" |} in
  let edits : gmap str str :=
    {[ lit "6-10" := lit " 10rem"; lit "16-20" := lit "0" ]} in
  patchCss css [b; a] edits = lit ":root{--a: 10rem; --b:0;}".
Proof.
  intros css a b edits.
  destruct (patch_order_independent css edits) as (ds & Hp & Hperm).
  assert (Hds : parseCssVariables css = Some [a; b]) by (vm_compute; reflexivity).
  rewrite Hds in Hp. injection Hp as <-.
  rewrite (Hperm [b; a]) by apply perm_swap.
  vm_compute. reflexivity.
Defined.

Lemma len_sliceFrom (s : str) (a : Z) :
  0 <= a <= len s -> len (sliceFrom s a) = len s - a.
Proof. intros. unfold sliceFrom. apply len_slice; lia. Qed.

Lemma len_rebuild (edits : gmap str str) (css : str) (ds : list CssVariable)
  (pos : Z) :
  0 <= pos -> Chain pos ds (len css) ->
  len (rebuild edits css pos ds) = len css - pos + shift edits ds (len css).
Proof.
  revert pos. induction ds as [|d ds IH]; simpl; intros pos Hpos H.
  - rewrite len_sliceFrom by lia. lia.
  - destruct H as (? & ? & H). destruct (Chain_bounds _ _ _ H) as [? _].
    destruct (Z.leb_spec (endIndex d) (len css)); [|lia].
    unfold growth. destruct (replacement edits d) as [e|].
    + rewrite !len_app, len_slice, IH by (done || lia). lia.
    + rewrite IH; [lia|lia|]. eapply Chain_weaken; [exact H|lia|lia].
Qed.

(** X8. The patched text is as long as the original plus what the
    replacements add to their spans. *)
Theorem patched_length (css : str) (edits : gmap str str) :
  exists ds, parseCssVariables css = Some ds /\
    len (patchCss css ds edits) = len css + shift edits ds (len css).
Proof.
  exists (scan css). split; [apply scan_spec|].
  pose proof (scan_Chain css) as HC.
  rewrite (patchCss_rebuild edits css _ HC).
  rewrite len_rebuild by (done || lia). lia.
Qed.

Lemma rebuild_unchanged (edits : gmap str str) (css : str)
  (ds : list CssVariable) (pos : Z) :
  Forall (fun d => replacement edits d = None) ds ->
  rebuild edits css pos ds = sliceFrom css pos.
Proof. induction 1 as [|d ds Hd _ IH]; simpl; [done|]. now rewrite Hd. Qed.

Lemma rebuild_skip (edits : gmap str str) (css : str)
  (pre ds : list CssVariable) (pos : Z) :
  Forall (fun d => replacement edits d = None) pre ->
  rebuild edits css pos (pre ++ ds) = rebuild edits css pos ds.
Proof. induction 1 as [|d pre Hd _ IH]; simpl; [done|]. now rewrite Hd. Qed.

Lemma slice_split (s : str) (a b : Z) :
  0 <= a <= b -> b <= len s ->
  slice s 0 a ++ slice s a b ++ sliceFrom s b = s.
Proof.
  intros. rewrite slice_0, sliceFrom_nonneg, slice_nonneg by lia.
  rewrite app_assoc, take_take_drop.
  replace (Z.to_nat a + Z.to_nat (b - a))%nat with (Z.to_nat b) by lia.
  apply take_drop.
Qed.

(** The patched text when at most the declaration [d] of a scan is changed. *)
Lemma patch_one_declaration (css : str) (edits : gmap str str)
  (d : CssVariable) (e : str) :
  d ∈ scan css ->
  edits !! id d = Some e ->
  (forall d', d' ∈ scan css -> id d' <> id d -> replacement edits d' = None) ->
  patchCss css (scan css) edits =
  slice css 0 (startIndex d) ++ e ++ sliceFrom css (endIndex d).
Proof.
  intros Hd He Hothers.
  pose proof (scan_Chain css) as HC. pose proof (scan_ids css) as Hids.
  pose proof (scan_Recorded css) as HRec.
  rewrite (patchCss_rebuild edits css _ HC).
  destruct (Chain_bounds _ _ _ HC) as [_ Hb].
  pose proof (Chain_wellformed _ _ _ HC) as Hw.
  rewrite Forall_forall in Hb, Hw, HRec.
  destruct (Hb _ Hd). specialize (Hw _ Hd). cbv beta in Hw.
  destruct (decide (e = value d)) as [->|Hne].
  - rewrite rebuild_unchanged.
    + rewrite <- (Recorded_value css d) by now apply HRec.
      rewrite (sliceFrom_nonneg css 0) by lia.
      change (drop (Z.to_nat 0) css) with css.
      symmetry. apply slice_split; lia.
    + apply Forall_forall. intros d' Hd'.
      destruct (decide (id d' = id d)) as [Heq|Hneq]; [|now apply Hothers].
      apply replacement_None. right. rewrite Heq, He. f_equal.
      apply list_elem_of_split in Hd as (l1 & l2 & Hsplit).
      rewrite Hsplit in Hd', Hids.
      rewrite fmap_app, fmap_cons in Hids.
      apply NoDup_app in Hids as (_ & Hl1 & Hl2).
      apply NoDup_cons in Hl2 as [Hl2 _].
      apply elem_of_app in Hd' as [Hd'|Hd'].
      * exfalso. apply (Hl1 (id d')); [now apply list_elem_of_fmap_2|].
        rewrite Heq. left.
      * apply elem_of_cons in Hd' as [->|Hd']; [done|].
        exfalso. apply Hl2. rewrite <- Heq. now apply list_elem_of_fmap_2.
  - assert (Hr : replacement edits d = Some e).
    { unfold replacement. rewrite He. now rewrite bool_decide_eq_true_2. }
    pose proof Hd as Hd0.
    apply list_elem_of_split in Hd as (l1 & l2 & Hsplit).
    assert (Hun : forall d', d' ∈ l1 ++ l2 -> replacement edits d' = None).
    { intros d' Hd'. apply Hothers.
      - rewrite Hsplit. apply elem_of_app in Hd' as [?|?];
          apply elem_of_app; [now left|right; now right].
      - rewrite Hsplit, fmap_app, fmap_cons in Hids.
        apply NoDup_app in Hids as (_ & Hl1 & Hl2).
        apply NoDup_cons in Hl2 as [Hl2 _].
        intros Heq. apply elem_of_app in Hd' as [Hd'|Hd'].
        + apply (Hl1 (id d')); [now apply list_elem_of_fmap_2|].
          rewrite Heq. left.
        + apply Hl2. rewrite <- Heq. now apply list_elem_of_fmap_2. }
    rewrite Hsplit. rewrite rebuild_skip.
    2:{ apply Forall_forall. intros d' Hd'. apply Hun, elem_of_app. now left. }
    simpl. rewrite Hr. rewrite rebuild_unchanged.
    2:{ apply Forall_forall. intros d' Hd'. apply Hun, elem_of_app. now right. }
    done.
Qed.

(** X9. When the edits change one declaration of a scan and no other, the
    patched text is the original with the span of that declaration replaced
    by the edited value. *)
Theorem one_edit_replaces_one_span (css : str) (edits : gmap str str) :
  exists ds, parseCssVariables css = Some ds /\
    forall d e,
      d ∈ ds ->
      edits !! id d = Some e ->
      (forall d', d' ∈ ds -> id d' <> id d ->
         edits !! id d' = None \/ edits !! id d' = Some (value d')) ->
      patchCss css ds edits =
      slice css 0 (startIndex d) ++ e ++ sliceFrom css (endIndex d).
Proof.
  exists (scan css). split; [apply scan_spec|]. intros d e Hd He Hothers.
  apply patch_one_declaration; [done|done|].
  intros d' Hd' Hne. apply replacement_None. now apply Hothers.
Qed.

(** In [":root{--a: 1px; --b: 2px;}"] the value of [--b] is edited and
    that of [--a] is entered as it was. *)
Lemma one_edit_replaces_one_span_witness :
  let css := lit ":root{--a: 1px; --b: 2px;}" in
  let edits : gmap str str :=
    {[ lit "6-10" := lit " 1px"; lit "16-20" := lit " 0.5rem" ]} in
  exists ds, parseCssVariables css = Some ds /\
    patchCss css ds edits = lit ":root{--a: 1px; --b: 0.5rem;}".
Proof.
  intros css edits.
  destruct (one_edit_replaces_one_span css edits) as (ds & Hp & Hone).
  exists ds. split; [exact Hp|].
  assert (Hds : parseCssVariables css =
                Some [ {| id := lit "6-10"; name := lit "--a";
                          value := lit " 1px"; startIndex := 10;
                          endIndex := 14; selector := lit ":root" |};
                       {| id := lit "16-20"; name := lit "--b";
                          value := lit " 2px"; startIndex := 20;
                          endIndex := 24; selector := lit ":root" |} ])
    by (vm_compute; reflexivity).
  rewrite Hds in Hp. injection Hp as <-.
  rewrite (Hone {| id := lit "16-20"; name := lit "--b";
                   value := lit " 2px"; startIndex := 20;
                   endIndex := 24; selector := lit ":root" |} (lit " 0.5rem")).
  - vm_compute. reflexivity.
  - right. left.
  - vm_compute. reflexivity.
  - intros d' Hd' Hne. right.
    apply elem_of_cons in Hd' as [->|Hd'].
    + vm_compute. reflexivity.
    + apply list_elem_of_singleton in Hd' as ->. now destruct Hne.
Defined.

(** * The component *)

Lemma patchCss_empty (css : str) (ds : list CssVariable) : patchCss css ds ∅ = css.
Proof.
  unfold patchCss. generalize (sortDesc ds).
  intros l. induction l as [|v l IH] using rev_ind; [done|].
  rewrite foldl_snoc, IH. unfold patchOne. now rewrite lookup_empty.
Qed.

(** Edits that hold, for every declaration, its own value change nothing. *)
Lemma patchCss_unchanged (css : str) (ds : list CssVariable)
  (edits : gmap str str) :
  Forall (fun v => edits !! id v = Some (value v)) ds ->
  patchCss css ds edits = css.
Proof.
  intros H. rewrite <- (patchCss_empty css ds) at 2.
  apply patchCss_ext. intros v Hv. rewrite Forall_forall in H.
  unfold replacement. rewrite (H _ Hv), lookup_empty.
  now rewrite bool_decide_eq_false_2 by (intros Hne; now apply Hne).
Qed.

Lemma initialValues_snoc (vars : list CssVariable) (v : CssVariable) :
  App.initialValues (vars ++ [v])
  = <[id v := value v]> (App.initialValues vars).
Proof. unfold App.initialValues. now rewrite foldl_snoc. Qed.

Lemma initialValues_is_Some (vars : list CssVariable) (v : CssVariable) :
  v ∈ vars -> is_Some (App.initialValues vars !! id v).
Proof.
  induction vars as [|w vars IH] using rev_ind; [now intros ?%elem_of_nil|].
  rewrite initialValues_snoc. intros Hv.
  destruct (decide (id w = id v)) as [Heq|Hne].
  - rewrite Heq, lookup_insert_eq. eauto.
  - rewrite lookup_insert_ne by done. apply IH.
    apply elem_of_app in Hv as [?|Hv]; [done|].
    apply list_elem_of_singleton in Hv as ->. now destruct Hne.
Qed.

Lemma initialValues_None (vars : list CssVariable) (k : str) :
  k ∉ id <$> vars -> App.initialValues vars !! k = None.
Proof.
  induction vars as [|w vars IH] using rev_ind; [intros _; apply lookup_empty|].
  rewrite initialValues_snoc, fmap_app. intros Hk.
  rewrite lookup_insert_ne.
  - apply IH. intros Hin. apply Hk, elem_of_app. now left.
  - intros <-. apply Hk, elem_of_app. right. simpl. left.
Qed.

Lemma initialValues_lookup (vars : list CssVariable) (v : CssVariable) :
  NoDup (id <$> vars) -> v ∈ vars ->
  App.initialValues vars !! id v = Some (value v).
Proof.
  induction vars as [|w vars IH] using rev_ind; [now intros _ ?%elem_of_nil|].
  rewrite initialValues_snoc, fmap_app. intros Hnd Hv.
  apply NoDup_app in Hnd as (Hnd & Hdis & _).
  apply elem_of_app in Hv as [Hv|Hv].
  - rewrite lookup_insert_ne; [now apply IH|].
    intros Heq. apply (Hdis (id v)); [now apply list_elem_of_fmap_2|].
    rewrite <- Heq. simpl. left.
  - apply list_elem_of_singleton in Hv as ->. apply lookup_insert_eq.
Qed.

(** X10. The edits the component starts from hold, for the declarations of
    a scan, each one's value under its id, and nothing under any other
    key. *)
Theorem initial_edits_of_scan (css : str) :
  exists ds, parseCssVariables css = Some ds /\
    Forall (fun d => App.initialValues ds !! id d = Some (value d)) ds /\
    forall k, k ∉ id <$> ds -> App.initialValues ds !! k = None.
Proof.
  exists (scan css). split; [apply scan_spec|]. split.
  - apply Forall_forall. intros d Hd.
    apply initialValues_lookup; [apply scan_ids|done].
  - apply initialValues_None.
Qed.

(** The key of another text in the edits of [":root{--a: 1px;}"]. *)
Lemma initial_edits_of_scan_witness :
  let css := lit ":root{--a: 1px;}" in
  exists ds, parseCssVariables css = Some ds /\
    App.initialValues ds !! lit "0-1" = None.
Proof.
  intros css.
  destruct (initial_edits_of_scan css) as (ds & Hp & _ & Hnone).
  exists ds. split; [exact Hp|]. apply Hnone.
  assert (Hds : parseCssVariables css =
                Some [ {| id := lit "6-10"; name := lit "--a";
                          value := lit " 1px"; startIndex := 10;
                          endIndex := 14; selector := lit ":root" |} ])
    by (vm_compute; reflexivity).
  rewrite Hds in Hp. injection Hp as <-.
  intros Hin%list_elem_of_In. vm_compute in Hin.
  destruct Hin as [Hin|Hin]; [discriminate Hin|exact Hin].
Defined.

Lemma step_Consistent (s : App.state) (e : App.event) :
  App.Consistent s -> App.Consistent (App.step s e).
Proof.
  intros [Hv He]. destruct e; simpl; split; simpl; try done.
  - apply Forall_forall. intros v Hv'. now apply initialValues_is_Some.
  - apply Forall_forall. intros v Hv'. now apply initialValues_is_Some.
  - eapply Forall_impl; [exact He|]. simpl. intros v Hs.
    destruct (decide (k = id v)) as [->|Hne].
    + rewrite lookup_insert_eq. eauto.
    + now rewrite lookup_insert_ne.
Qed.

Lemma scan_nil : scan [] = [].
Proof. reflexivity. Qed.

Lemma run_Consistent (events : list App.event) :
  App.Consistent (App.run events).
Proof.
  unfold App.run. induction events as [|e events IH] using rev_ind.
  - split; [done|constructor].
  - rewrite foldl_snoc. now apply step_Consistent.
Qed.

(** X11. Whatever the user does, the component's declarations are those of
    the text it holds, and each of them has an entry in the edits: the
    list never shows a declaration whose edited value is undefined. *)
Theorem component_consistent (events : list App.event) :
  App.variables (App.run events) = scan (App.originalCss (App.run events)) /\
  Forall (fun v => is_Some (App.modifiedValues (App.run events) !! id v))
    (App.variables (App.run events)).
Proof. exact (run_Consistent events). Qed.

Lemma initialValues_unchanged (css : str) :
  Forall (fun v => App.initialValues (scan css) !! id v = Some (value v))
    (scan css).
Proof.
  apply Forall_forall. intros d Hd.
  apply initialValues_lookup; [apply scan_ids|done].
Qed.

Lemma changed_nil (vars : list CssVariable) (edits : gmap str str) :
  Forall (fun v => edits !! id v = Some (value v)) vars ->
  filter (fun v => edits !! id v ≠ Some (value v)) vars = [].
Proof.
  induction 1 as [|v vars Hv _ IH]; [done|].
  rewrite filter_cons_False; [done|]. intros Hne. now apply Hne.
Qed.

(** X12. Right after a file is loaded, and after a reset in any state the
    component reaches, the text it writes out is the text it was given, and
    the diff view is empty. *)
Theorem load_and_reset_restore (events : list App.event) (text : str) :
  let loaded := App.fileLoaded text (App.run events) in
  let reset := App.handleReset (App.run events) in
  App.patched loaded = text /\ App.changed loaded = [] /\
  App.patched reset = App.originalCss (App.run events) /\
  App.changed reset = [].
Proof.
  intros loaded reset.
  destruct (run_Consistent events) as [Hv _].
  unfold App.patched, App.changed, loaded, reset. simpl.
  rewrite Hv.
  pose proof (initialValues_unchanged text).
  pose proof (initialValues_unchanged (App.originalCss (App.run events))).
  repeat split; (now apply patchCss_unchanged) || (now apply changed_nil).
Qed.

Lemma changed_is_replaced (vars : list CssVariable) (edits : gmap str str) :
  Forall (fun v => is_Some (edits !! id v)) vars ->
  filter (fun v => edits !! id v ≠ Some (value v)) vars
  = filter (fun v => is_Some (replacement edits v)) vars.
Proof.
  induction 1 as [|v vars [e He] _ IH]; [done|].
  rewrite !filter_cons, IH.
  assert (Hiff : edits !! id v ≠ Some (value v) <-> is_Some (replacement edits v)).
  { unfold replacement. rewrite He.
    destruct (bool_decide_reflect (e ≠ value v)) as [Hne|Heq].
    - split; [eauto|]. intros _ [= ?]. now apply Hne.
    - split; [|now intros [? ?]]. intros Hne. exfalso. apply Hne. f_equal.
      destruct (decide (e = value v)); [done|]. now destruct Heq. }
  destruct (decide (edits !! id v ≠ Some (value v))) as [H1|H1],
           (decide (is_Some (replacement edits v))) as [H2|H2];
    try done; tauto.
Qed.

(** X13. In every state the component reaches, the diff view lists exactly
    the declarations whose span the patcher rewrites, in the order of the
    text; when it lists none, the text written out is the text given. *)
Theorem diff_view_matches_patch (events : list App.event) :
  let s := App.run events in
  App.changed s
  = filter (fun v => is_Some (replacement (App.modifiedValues s) v))
      (App.variables s) /\
  App.patched s
  = rebuild (App.modifiedValues s) (App.originalCss s) 0 (App.variables s) /\
  (App.changed s = [] -> App.patched s = App.originalCss s).
Proof.
  intros s. destruct (run_Consistent events) as [Hv He].
  fold s in Hv, He. split; [|split].
  - now apply changed_is_replaced.
  - unfold App.patched. rewrite Hv. apply patchCss_rebuild, scan_Chain.
  - intros Hnil. unfold App.patched. apply patchCss_unchanged.
    apply Forall_forall. intros v Hv'.
    destruct (decide (App.modifiedValues s !! id v = Some (value v)))
      as [|Hne]; [done|].
    exfalso. eapply (filter_nil_not_elem_of _ _ v Hnil); [exact Hne|done].
Qed.

(** A file is loaded and nothing is edited. *)
Lemma diff_view_matches_patch_witness :
  let events := [ App.FileLoaded (lit ":root{--a: 1px; --b: 2px;}") ] in
  App.changed (App.run events) = [] /\
  App.patched (App.run events) = lit ":root{--a: 1px; --b: 2px;}".
Proof.
  intros events.
  assert (H : App.changed (App.run events) = []) by (vm_compute; reflexivity).
  split; [exact H|].
  exact (proj2 (proj2 (diff_view_matches_patch events)) H).
Defined.

(** X14. After a reset, changing the value of one declaration makes the
    text written out the original with that declaration's span replaced by
    the new value, and nothing else changed. *)
Theorem edit_after_reset (events : list App.event) (v : CssVariable) (e : str) :
  let s := App.run events in
  v ∈ App.variables s ->
  App.patched (App.updateValue (id v) e (App.handleReset s))
  = slice (App.originalCss s) 0 (startIndex v) ++ e
      ++ sliceFrom (App.originalCss s) (endIndex v).
Proof.
  intros s Hv. destruct (run_Consistent events) as [Hvars _].
  fold s in Hvars. unfold App.patched. simpl. rewrite Hvars in Hv |- *.
  apply patch_one_declaration; [done|apply lookup_insert_eq|].
  intros d' Hd' Hne. apply replacement_None. right.
  rewrite lookup_insert_ne by done.
  apply initialValues_lookup; [apply scan_ids|done].
Qed.

(** A file with two declarations is loaded, the second one is edited, the
    edits are reset and the first one is edited. *)
Lemma edit_after_reset_witness :
  let a := {| id := lit "6-10"; name := lit "--a"; value := lit " 1px";
              startIndex := 10; endIndex := 14; selector := lit ":root" |} in
  let events := [ App.FileLoaded (lit ":root{--a: 1px; --b: 2px;}");
                  App.ValueChanged (lit "16-20") (lit " 9px") ] in
  App.patched (App.updateValue (id a) (lit "0") (App.handleReset (App.run events)))
  = lit ":root{--a:0; --b: 2px;}".
Proof.
  intros a events.
  rewrite (edit_after_reset events a (lit "0")).
  - vm_compute. reflexivity.
  - vm_compute. left.
Defined.

Lemma find_by_id (l : list CssVariable) (v : CssVariable) :
  NoDup (id <$> l) -> v ∈ l ->
  List.find (fun w => bool_decide (Some (id v) = Some (id w))) l = Some v.
Proof.
  induction l as [|w l IH]; simpl; [now intros _ ?%elem_of_nil|].
  intros Hnd Hv. apply NoDup_cons in Hnd as [Hw Hnd].
  apply elem_of_cons in Hv as [->|Hv].
  - now rewrite bool_decide_eq_true_2.
  - rewrite bool_decide_eq_false_2; [now apply IH|].
    intros [= Heq]. apply Hw. rewrite <- Heq. now apply list_elem_of_fmap_2.
Qed.

(** X15. Clicking a declaration of the list makes it the selected one, and
    the value shown for it is its entry in the edits, which is defined. *)
Theorem clicked_declaration_is_selected (events : list App.event)
  (v : CssVariable) :
  let s := App.run events in
  let s' := App.step s (App.VariableClicked (id v)) in
  v ∈ App.variables s ->
  App.selectedVar s' = Some v /\
  App.selectedValue s' = App.modifiedValues s !! id v /\
  is_Some (App.modifiedValues s !! id v).
Proof.
  intros s s' Hv. destruct (run_Consistent events) as [Hvars He].
  fold s in Hvars, He.
  assert (Hsel : App.selectedVar s' = Some v).
  { unfold App.selectedVar, s'. simpl. apply find_by_id; [|done].
    rewrite Hvars. apply scan_ids. }
  split; [done|]. split.
  - unfold App.selectedValue. now rewrite Hsel.
  - rewrite Forall_forall in He. now apply He.
Qed.

(** The second declaration of a loaded file is clicked. *)
Lemma clicked_declaration_is_selected_witness :
  let b := {| id := lit "16-20"; name := lit "--b"; value := lit " 2px";
              startIndex := 20; endIndex := 24; selector := lit ":root" |} in
  let s := App.run [ App.FileLoaded (lit ":root{--a: 1px; --b: 2px;}") ] in
  App.selectedVar (App.step s (App.VariableClicked (id b))) = Some b.
Proof.
  intros b s.
  apply (clicked_declaration_is_selected
           [ App.FileLoaded (lit ":root{--a: 1px; --b: 2px;}") ] b).
  vm_compute. right. left.
Defined.

(** X16. When a file has been loaded, the selected id is the id of the
    first declaration of its scan, and the id selected before when the scan
    found none; the declaration shown is the first one of the scan, and none
    when the scan found none. *)
Theorem loaded_file_selects_first (text : str) (s : App.state) :
  App.selectedVarId (App.fileLoaded text s)
  = match head (scan text) with
    | Some v => Some (id v)
    | None => App.selectedVarId s
    end /\
  App.selectedVar (App.fileLoaded text s) = head (scan text).
Proof.
  unfold App.selectedVar. simpl. destruct (scan text) as [|v vars]; [done|].
  simpl. now rewrite bool_decide_eq_true_2.
Qed.

(** ** The colour test *)

(** X17. White space around a value does not change whether it is taken
    for a colour: the raw values of the scanner, which keep the white space
    after the colon, are classified like their trimmed text. *)
Theorem isColor_ignores_padding (w1 val w2 : str) :
  Forall (fun c => isWhite c = true) w1 ->
  Forall (fun c => isWhite c = true) w2 ->
  isColor (w1 ++ val ++ w2) = isColor val.
Proof. intros H1 H2. unfold isColor. now rewrite trim_padded. Qed.

(** A colour with a space before it and a line break after it. *)
Lemma isColor_ignores_padding_witness :
  isColor (lit " " ++ lit "#ff0000" ++ [10%N]) = isColor (lit "#ff0000") /\
  isColor (lit "#ff0000") = true.
Proof.
  split; [|reflexivity].
  apply isColor_ignores_padding; repeat constructor.
Defined.

(** * Further properties of the value scan *)

Lemma quoteStep_plain (css : str) (k : Z) (c : option char) :
  isChar c Ch.dquote = false -> isChar c Ch.squote = false ->
  quoteStep css k c None = None.
Proof. intros H1 H2. unfold quoteStep. now rewrite H1, H2. Qed.

Lemma isChar_not_elem_of (css : str) (k : Z) (c : char) :
  c ∉ css -> isChar (charAt css k) c = false.
Proof.
  intros Hc. destruct (isChar (charAt css k) c) eqn:E; [|done].
  apply isChar_Some, charAt_elem_of in E. done.
Qed.

(** In a text without quotes, the value scan ends where the parentheses it
    has met, together with the depth it started from, cancel out. *)
Lemma scanValueEnd_balance (css : str) (k : Z) (t : option char) (d : Z) :
  Ch.dquote ∉ css -> Ch.squote ∉ css -> t = None -> 0 <= k ->
  scanValueEnd css k t d <> -1 ->
  d + Z.of_nat (length (filter (fun x => x = Ch.lparen)
                          (slice css k (scanValueEnd css k t d))))
  = Z.of_nat (length (filter (fun x => x = Ch.rparen)
                        (slice css k (scanValueEnd css k t d)))).
Proof.
  funelim (scanValueEnd css k t d); [|done].
  clear Heqcall Heq. intros Hdq Hsq -> Hk.
  assert (Hq : quoteStep css k (charAt css k) None = None)
    by (apply quoteStep_plain; now apply isChar_not_elem_of).
  specialize (H Hdq Hsq Hq ltac:(lia)).
  specialize (H0 Hdq Hsq Hq ltac:(lia)).
  specialize (H1 Hdq Hsq Hq ltac:(lia)).
  rewrite Hq in *. cbv zeta. cbn [isNull]. unfold str in *.
  destruct (charAt css k) as [c|] eqn:Ec.
  2:{ unfold charAt in Ec. destruct (Z.ltb_spec k 0); [lia|].
      apply lookup_ge_None in Ec. unfold len in *. lia. }
  destruct (isChar (Some c) Ch.lparen) eqn:E1.
  { cbv iota. intros Hne. apply isChar_Some in E1 as [= ->].
    destruct (scanValueEnd_range css (k + 1) None (tempParenDepth + 1))
      as [?|[? _]]; [done|].
    rewrite (slice_cons css k _ Ch.lparen) by (done || lia).
    rewrite filter_cons_True, filter_cons_False by done.
    specialize (H Hne). simpl. lia. }
  destruct (isChar (Some c) Ch.rparen) eqn:E2.
  { cbv iota. intros Hne. apply isChar_Some in E2 as [= ->].
    destruct (scanValueEnd_range css (k + 1) None (tempParenDepth - 1))
      as [?|[? _]]; [done|].
    rewrite (slice_cons css k _ Ch.rparen) by (done || lia).
    rewrite filter_cons_False, filter_cons_True by done.
    specialize (H0 Hne). simpl. lia. }
  destruct ((isChar (Some c) Ch.semi || isChar (Some c) Ch.rbrace)
            && (tempParenDepth =? 0)) eqn:E3.
  { cbv iota. intros _. apply andb_prop in E3 as [_ E3%Z.eqb_eq].
    rewrite slice_empty by lia. simpl. lia. }
  cbv iota. intros Hne.
  destruct (scanValueEnd_range css (k + 1) None tempParenDepth)
    as [?|[? _]]; [done|].
  rewrite (slice_cons css k _ c) by (done || lia).
  assert (c <> Ch.lparen) by (intros ->; discriminate E1).
  assert (c <> Ch.rparen) by (intros ->; discriminate E2).
  rewrite !filter_cons_False by done.
  now apply H1.
Qed.

(** X18. In a text without quotes, every value a scan records has as many
    opening as closing parentheses: a value ends only where its parentheses
    are closed. *)
Theorem values_balance_parentheses (css : str) :
  Ch.dquote ∉ css -> Ch.squote ∉ css ->
  exists ds, parseCssVariables css = Some ds /\
    Forall (fun d => length (filter (fun x => x = Ch.lparen) (value d))
                     = length (filter (fun x => x = Ch.rparen) (value d))) ds.
Proof.
  intros Hdq Hsq. exists (scan css). split; [apply scan_spec|].
  eapply Forall_impl; [apply scan_Recorded|]. simpl.
  intros d (st & c & e & _ & _ & F & ->). simpl.
  pose proof (charAt_Some_range _ _ _ (finds_dash _ _ _ _ F)).
  pose proof (finds_colon_range _ _ _ _ F).
  pose proof (finds_end_range _ _ _ _ F).
  pose proof (scanValueEnd_balance css (c + 1) None 0 Hdq Hsq eq_refl) as Hb.
  rewrite (finds_end _ _ _ _ F) in Hb.
  specialize (Hb ltac:(lia) ltac:(lia)). lia.
Qed.

(** A value with nested parentheses. *)
Lemma values_balance_parentheses_witness :
  let css := lit ".x{--c: calc(1px + var(--d, 2px)); }" in
  (Ch.dquote ∉ css) /\ (Ch.squote ∉ css) /\
  exists ds, parseCssVariables css = Some ds /\
    Forall (fun d => length (filter (fun x => x = Ch.lparen) (value d))
                     = length (filter (fun x => x = Ch.rparen) (value d))) ds.
Proof.
  intros css.
  assert (H1 : Ch.dquote ∉ css).
  { intros Hin%list_elem_of_In. vm_compute in Hin.
    repeat (destruct Hin as [Hin|Hin]; [discriminate Hin|]). exact Hin. }
  assert (H2 : Ch.squote ∉ css).
  { intros Hin%list_elem_of_In. vm_compute in Hin.
    repeat (destruct Hin as [Hin|Hin]; [discriminate Hin|]). exact Hin. }
  split; [exact H1|]. split; [exact H2|].
  exact (values_balance_parentheses css H1 H2).
Defined.

(** In a text without quotes and parentheses the value scan passes no
    terminator before it ends. *)
Lemma scanValueEnd_first (css : str) (k : Z) (t : option char) (d : Z) :
  Ch.dquote ∉ css -> Ch.squote ∉ css ->
  Ch.lparen ∉ css -> Ch.rparen ∉ css ->
  t = None -> d = 0 -> 0 <= k ->
  scanValueEnd css k t d <> -1 ->
  Forall (fun x => x <> Ch.semi /\ x <> Ch.rbrace)
    (slice css k (scanValueEnd css k t d)).
Proof.
  funelim (scanValueEnd css k t d); [|done].
  clear Heqcall Heq H H0. intros Hdq Hsq Hlp Hrp -> -> Hk.
  assert (Hq : quoteStep css k (charAt css k) None = None)
    by (apply quoteStep_plain; now apply isChar_not_elem_of).
  specialize (H1 Hdq Hsq Hlp Hrp Hq eq_refl ltac:(lia)).
  rewrite Hq in *. cbv zeta. cbn [isNull].
  rewrite (isChar_not_elem_of css k Ch.lparen Hlp).
  rewrite (isChar_not_elem_of css k Ch.rparen Hrp).
  destruct (charAt css k) as [c|] eqn:Ec.
  2:{ unfold charAt in Ec. destruct (Z.ltb_spec k 0); [lia|].
      apply lookup_ge_None in Ec. unfold len in *. lia. }
  destruct ((isChar (Some c) Ch.semi || isChar (Some c) Ch.rbrace) && (0 =? 0))
    eqn:E3; cbv iota.
  - intros _. rewrite slice_empty by lia. constructor.
  - intros Hne.
    destruct (scanValueEnd_range css (k + 1) None 0) as [?|[? _]]; [done|].
    rewrite (slice_cons css k _ c) by (done || lia).
    constructor; [|now apply H1].
    rewrite andb_true_r in E3. apply orb_false_elim in E3 as [E3 E4].
    split; intros ->; [vm_compute in E3|vm_compute in E4]; discriminate.
Qed.

(** X19. In a text without quotes and parentheses, no value a scan records
    holds a [;] or a [}]: a value ends at the first terminator after its
    colon. *)
Theorem values_end_at_first_terminator (css : str) :
  Ch.dquote ∉ css -> Ch.squote ∉ css ->
  Ch.lparen ∉ css -> Ch.rparen ∉ css ->
  exists ds, parseCssVariables css = Some ds /\
    Forall (fun d => (Ch.semi ∉ value d) /\ (Ch.rbrace ∉ value d)) ds.
Proof.
  intros Hdq Hsq Hlp Hrp. exists (scan css). split; [apply scan_spec|].
  eapply Forall_impl; [apply scan_Recorded|]. simpl.
  intros d (st & c & e & _ & _ & F & ->). simpl.
  pose proof (charAt_Some_range _ _ _ (finds_dash _ _ _ _ F)).
  pose proof (finds_colon_range _ _ _ _ F).
  pose proof (finds_end_range _ _ _ _ F).
  pose proof (scanValueEnd_first css (c + 1) None 0 Hdq Hsq Hlp Hrp
                eq_refl eq_refl) as Hf.
  rewrite (finds_end _ _ _ _ F) in Hf.
  specialize (Hf ltac:(lia) ltac:(lia)). rewrite Forall_forall in Hf.
  split; intros Hin; destruct (Hf _ Hin); done.
Qed.

(** A block of two plain declarations. *)
Lemma values_end_at_first_terminator_witness :
  let css := lit ":root{--a: 1px; --b: 2px}" in
  exists ds, parseCssVariables css = Some ds /\
    Forall (fun d => (Ch.semi ∉ value d) /\ (Ch.rbrace ∉ value d)) ds.
Proof.
  intros css.
  apply values_end_at_first_terminator;
    intros Hin%list_elem_of_In; vm_compute in Hin;
    repeat (destruct Hin as [Hin|Hin]; [discriminate Hin|]); exact Hin.
Defined.

(** X20. Where the scanner, outside comments and strings and inside a
    block, stands on the two dashes of a valid name followed by a colon and
    a terminated value, it records that declaration and goes on at the
    closing brace, or after the semicolon, with its context unchanged. *)
Theorem found_declaration_is_recorded (css : str) (st : state)
  (colonIndex valueEndIndex : Z) :
  Finds css st colonIndex valueEndIndex ->
  variables (body css st)
  = variables st ++ [recorded css st colonIndex valueEndIndex] /\
  i (body css st)
  = (if isChar (charAt css valueEndIndex) Ch.rbrace
     then valueEndIndex else valueEndIndex + 1) /\
  braceDepth (body css st) = braceDepth st /\
  currentSelector (body css st) = currentSelector st /\
  buffer (body css st) = buffer st.
Proof.
  intros F. pose proof (finds_colon_range _ _ _ _ F).
  pose proof (finds_end_range _ _ _ _ F).
  pose proof (charAt_Some_range _ _ _ (finds_dash _ _ _ _ F)).
  unfold body, iteration.
  rewrite (finds_comment _ _ _ _ F), (finds_string _ _ _ _ F),
    (finds_dash _ _ _ _ F). simpl.
  rewrite (tryDeclaration_finds css st colonIndex valueEndIndex);
    try apply F; try lia.
  destruct (isChar (charAt css valueEndIndex) Ch.rbrace); simpl;
    repeat split; lia.
Qed.

(** The declaration of [":root{--a: 1px}"], ended by the brace. *)
Lemma found_declaration_is_recorded_witness :
  let css := lit ":root{--a: 1px}" in
  let st := {| i := 6; variables := []; currentSelector := lit ":root";
               braceDepth := 1; inComment := false; inString := None;
               buffer := [] |} in
  Finds css st 9 14 /\
  variables (body css st) = variables st ++ [recorded css st 9 14] /\
  i (body css st) = 14.
Proof.
  intros css st.
  assert (F : Finds css st 9 14).
  { constructor; try reflexivity; try (vm_compute; reflexivity);
      split; (apply Z.leb_le || apply Z.ltb_lt); reflexivity. }
  split; [exact F|].
  destruct (found_declaration_is_recorded css st 9 14 F) as (Hv & Hi & _).
  split; [exact Hv|]. rewrite Hi. reflexivity.
Defined.

(** * The numeric test *)

Example isNumeric_examples :
  isNumeric (lit " 12px") = true /\ isNumeric (lit "-.5rem ") = true /\
  isNumeric (lit "1.5") = true /\ isNumeric (lit "100%") = true /\
  isNumeric (lit "1.") = false /\ isNumeric (lit "px") = false /\
  isNumeric (lit "1 px") = false /\ isNumeric (lit "12pt") = false /\
  isNumeric (lit "1.2.3") = false /\ isNumeric (lit "") = false.
Proof. vm_compute. repeat split; reflexivity. Qed.

Lemma isVoid_not_nullable (r : regex) : isVoid r = true -> nullable r = false.
Proof.
  induction r as [| |p|a IHa b IHb|a IHa b IHb|a IHa]; simpl; try done.
  - intros [Ha|Hb]%orb_prop.
    + now rewrite IHa.
    + rewrite IHb by done. apply andb_false_r.
  - intros [Ha Hb]%andb_prop. now rewrite IHa, IHb.
Qed.

Lemma isVoid_deriv (r : regex) (c : char) :
  isVoid r = true -> isVoid (deriv r c) = true.
Proof.
  induction r as [| |p|a IHa b IHb|a IHa b IHb|a IHa]; simpl; try done.
  - intros [Ha|Hb]%orb_prop.
    + rewrite (isVoid_not_nullable a Ha). simpl. now rewrite IHa.
    + destruct (nullable a); simpl; rewrite Hb, ?IHb by done;
        now rewrite ?orb_true_r.
  - intros [Ha Hb]%andb_prop. now rewrite IHa, IHb.
Qed.

(** A pattern that is void by its shape matches no text. *)
Lemma isVoid_matches (r : regex) (s : str) :
  isVoid r = true -> matches r s = false.
Proof.
  revert r. induction s as [|c s IH]; intros r Hr; simpl.
  - now apply isVoid_not_nullable.
  - apply IH. now apply isVoid_deriv.
Qed.

(** A numeric value begins with a dash, a dot or a digit. *)
Lemma numeric_first (c : char) (s : str) :
  matches numericPattern (c :: s) = true ->
  c = Ch.dash \/ c = 46%N \/ digit c = true.
Proof.
  intros Hm.
  destruct (N.eqb Ch.dash c) eqn:E1; [left; apply N.eqb_eq in E1; done|].
  destruct (N.eqb 46 c) eqn:E2; [right; left; apply N.eqb_eq in E2; done|].
  destruct (digit c) eqn:E3; [now right; right|].
  exfalso. change (matches (deriv numericPattern c) s = true) in Hm.
  rewrite isVoid_matches in Hm; [discriminate|].
  cbn [deriv nullable isVoid numericPattern Opt Plus andb orb].
  rewrite E1, E2, E3. reflexivity.
Qed.

(** A colour begins with one of six characters. *)
Lemma color_first (val : str) :
  isColor val = true ->
  exists c s, trim val = c :: s /\
    (c = 35 \/ c = 114 \/ c = 104 \/ c = 98 \/ c = 103 \/ c = 119)%N.
Proof.
  unfold isColor. destruct (trim val) as [|c s]; [vm_compute; discriminate|].
  intros H. exists c, s. split; [done|].
  apply orb_prop in H as [H|H];
    [apply orb_prop in H as [H|H]; [apply orb_prop in H as [H|H]|]|].
  1-3: simpl in H; apply andb_prop in H as [H _]; apply N.eqb_eq in H;
    subst; tauto.
  cbn [existsb] in H.
  repeat (apply orb_prop in H as [H|H]);
    try (apply bool_decide_eq_true in H; injection H as <- _; tauto).
  discriminate H.
Qed.

(** X21. No value gets both the colour picker and the slider: what is
    taken for a colour is not taken for a number. *)
Theorem color_is_not_numeric (val : str) :
  isColor val = true -> isNumeric val = false.
Proof.
  intros (c & s & Ht & Hc)%color_first. unfold isNumeric. rewrite Ht.
  destruct (matches numericPattern (c :: s)) eqn:Hm; [|done].
  apply numeric_first in Hm as [->|[->|Hd]].
  - repeat (destruct Hc as [Hc|Hc]; [discriminate Hc|]). discriminate Hc.
  - repeat (destruct Hc as [Hc|Hc]; [discriminate Hc|]). discriminate Hc.
  - repeat (destruct Hc as [->|Hc]; [discriminate Hd|]). subst. discriminate Hd.
Qed.

(** A colour as the scanner records it, with the space after the colon. *)
Lemma color_is_not_numeric_witness :
  isColor (lit " #1a2b3c") = true /\ isNumeric (lit " #1a2b3c") = false.
Proof.
  assert (H : isColor (lit " #1a2b3c") = true) by reflexivity.
  split; [exact H|]. exact (color_is_not_numeric _ H).
Defined.
